(** * MDLog: the segment-structured metadata journal (mds/MDLog.cc)

    A shallow embedding of [MDLog] as explicit state passing over a record
    of its member variables.  Every method becomes a function from the log
    state to a [result]: a failed [assert] is [AssertFail], a hardware
    fault (division by a zero period, a null callback) is [Fault].

    The whole class runs under the server's big lock (mds_lock), so a
    method is one atomic step of the state; the replay worker is the
    function [_replay_thread], run as a step of its own after [replay]
    has started it.  Debug output ([dout]) and the metric sink ([logger],
    write-only from the log) are left out of the state. *)

From Stdlib Require Import ZArith List Bool Lia String.
Import ListNotations.
Open Scope Z_scope.

(** ** Outcomes of a method *)

Inductive result (A : Type) : Type :=
| Ok (a : A)
| AssertFail (what : string)
| Fault (what : string)
| Blocked
| OutOfFuel.

Arguments Ok {A} a.
Arguments AssertFail {A} what.
Arguments Fault {A} what.
Arguments Blocked {A}.
Arguments OutOfFuel {A}.

Definition bind {A B : Type} (r : result A) (k : A -> result B) : result B :=
  match r with
  | Ok a => k a
  | AssertFail w => AssertFail w
  | Fault w => Fault w
  | Blocked => Blocked
  | OutOfFuel => OutOfFuel
  end.

Notation "x <- r ;; k" := (bind r (fun x => k))
  (at level 61, r at next level, right associativity).

(** [assert(b)] *)
Definition assert (b : bool) (what : string) : result unit :=
  if b then Ok tt else AssertFail what.

(** ** Events

    [le->get_type()] is compared with [EVENT_SUBTREEMAP] only; the
    enumeration itself lives in LogEvent.h. *)

Inductive event_type : Type :=
| EVENT_SUBTREEMAP
| EVENT_OTHER (tag : Z).

Definition is_subtreemap (t : event_type) : bool :=
  match t with EVENT_SUBTREEMAP => true | EVENT_OTHER _ => false end.

Record LogEvent : Type := mkLogEvent {
  _type : event_type;
  payload : list Byte.byte
}.

(** The encoded entry: [bl.append((char* )&le->_type, sizeof(le->_type))]
    followed by [le->encode_payload(bl)]; the tag is a 4-byte int. *)
Definition encoded_length (le : LogEvent) : Z :=
  4 + Z.of_nat (List.length (payload le)).

(** ** Completion callbacks ([Context*])

    [C_MDL_WroteSubtreeMap] is the log's own completion for a checkpoint;
    every other callback is the caller's and is opaque to the log. *)

Inductive Context : Type :=
| C_MDL_WroteSubtreeMap (off : Z)
| C_Caller (id : nat).

(** ** Segments *)

Module LogSegment.
Record t : Type := mk { offset : Z; num_events : Z }.

(** Modelled from the spec: LogSegment.h is not part of the sources; a
    fresh segment is created at an offset and its event count, which
    [submit_entry] increments, starts at zero. *)
Definition new (off : Z) : t := mk off 0.

Definition inc_num_events (s : t) : t := mk (offset s) (num_events s + 1).
End LogSegment.

(** The segment table [map<off_t,LogSegment*> segments].  Every entry is
    created as [segments[pos] = new LogSegment(pos)], so the key of an
    entry is the offset of its segment and the table is the list of its
    segments in ascending offset order.  A [LogSegment*] is the segment it
    points to; two pointers are equal when their offsets are. *)
Definition segment_map : Type := list LogSegment.t.

Fixpoint seg_insert (s : LogSegment.t) (m : segment_map) : segment_map :=
  match m with
  | [] => [s]
  | x :: m' =>
      if LogSegment.offset s <? LogSegment.offset x then s :: x :: m'
      else if LogSegment.offset s =? LogSegment.offset x then s :: m'
      else x :: seg_insert s m'
  end.

Definition seg_erase (off : Z) (m : segment_map) : segment_map :=
  filter (fun x => negb (LogSegment.offset x =? off)) m.

Definition seg_count (off : Z) (m : segment_map) : bool :=
  existsb (fun x => LogSegment.offset x =? off) m.

Definition seg_find (off : Z) (m : segment_map) : option LogSegment.t :=
  find (fun x => LogSegment.offset x =? off) m.

Definition seg_begin (m : segment_map) : option LogSegment.t := hd_error m.

Fixpoint seg_rbegin (m : segment_map) : option LogSegment.t :=
  match m with
  | [] => None
  | [x] => Some x
  | _ :: m' => seg_rbegin m'
  end.

(** [le->_segment->num_events++] on the last segment of the table. *)
Fixpoint seg_inc_last (m : segment_map) : segment_map :=
  match m with
  | [] => []
  | [x] => [LogSegment.inc_num_events x]
  | x :: m' => x :: seg_inc_last m'
  end.

Definition seg_keys (m : segment_map) : list Z := map LogSegment.offset m.

Fixpoint seg_sum (m : segment_map) : Z :=
  match m with
  | [] => 0
  | x :: m' => LogSegment.num_events x + seg_sum m'
  end.

(** Keys of a [std::map] strictly increase. *)
Fixpoint increasing (l : list Z) : Prop :=
  match l with
  | [] => True
  | x :: l' => (forall y, In y l' -> x < y) /\ increasing l'
  end.

(** The set [set<LogSegment*> trimming_segments], by offset. *)
Definition set_count (x : Z) (s : list Z) : bool := existsb (Z.eqb x) s.
Definition set_insert (x : Z) (s : list Z) : list Z :=
  if set_count x s then s else s ++ [x].
Definition set_erase (x : Z) (s : list Z) : list Z :=
  filter (fun y => negb (x =? y)) s.

(** ** The streamer

    Modelled from the spec: osdc/Journaler.h is not part of the sources.
    A byte-addressed append-only stream with the offsets [expire_pos],
    [read_pos] and [write_pos]; the body is the sequence of appended
    entries, each at the position where it was written; an entry occupies
    its encoded length.  Flush completions wait in [waitfor_flush] until
    the I/O context completes them.  The stream is readable when an entry
    starts at [read_pos]. *)

Module Journaler.
Record t : Type := mk {
  active : bool;
  expire_pos : Z;
  read_pos : Z;
  write_pos : Z;
  body : list (Z * LogEvent);
  waitfor_flush : list Context;
  head_waiters : list Context
}.

Definition reset (j : t) : t :=
  mk true 0 0 0 [] (waitfor_flush j) (head_waiters j).

Definition set_read_pos (p : Z) (j : t) : t :=
  mk (active j) (expire_pos j) p (write_pos j) (body j)
     (waitfor_flush j) (head_waiters j).

Definition set_expire_pos (p : Z) (j : t) : t :=
  mk (active j) p (read_pos j) (write_pos j) (body j)
     (waitfor_flush j) (head_waiters j).

Definition append_entry (le : LogEvent) (j : t) : t :=
  mk (active j) (expire_pos j) (read_pos j)
     (write_pos j + encoded_length le)
     (body j ++ [(write_pos j, le)])
     (waitfor_flush j) (head_waiters j).

Definition flush (c : option Context) (j : t) : t :=
  match c with
  | None => j
  | Some c =>
      mk (active j) (expire_pos j) (read_pos j) (write_pos j) (body j)
         (waitfor_flush j ++ [c]) (head_waiters j)
  end.

Definition write_head (c : option Context) (j : t) : t :=
  match c with
  | None => j
  | Some c =>
      mk (active j) (expire_pos j) (read_pos j) (write_pos j) (body j)
         (waitfor_flush j) (head_waiters j ++ [c])
  end.

Definition entry_at (p : Z) (j : t) : option LogEvent :=
  match find (fun e => fst e =? p) (body j) with
  | Some e => Some (snd e)
  | None => None
  end.

Definition is_readable (j : t) : bool :=
  match entry_at (read_pos j) j with Some _ => true | None => false end.

Definition try_read_entry (j : t) : option (LogEvent * t) :=
  match entry_at (read_pos j) j with
  | Some le => Some (le, set_read_pos (read_pos j + encoded_length le) j)
  | None => None
  end.
End Journaler.

(** ** Configuration and the collaborators the log consults

    [g_conf] holds the two global switches the file reads;
    [period] is [log_inode.layout.period()]; [try_to_expire] is the cache's
    answer for a segment ([true]: a barrier is returned, work is pending);
    [g_clock_now k] is the k-th reading of the global clock within a call,
    in microseconds; [subtree_map_payload] is the checkpoint the cache
    synthesizes in [create_subtree_map]. *)

Record Config : Type := mkConfig {
  mds_log : bool;
  mds_log_max_trimming : Z
}.

Record Env : Type := mkEnv {
  g_conf : Config;
  period : Z;
  try_to_expire : LogSegment.t -> bool;
  g_clock_now : nat -> Z;
  subtree_map_payload : list Byte.byte
}.

(** The cast [(int)(...)] of a [size_t] value: reduction to 32 bits, signed. *)
Definition int_cast (z : Z) : Z :=
  let m := z mod 2 ^ 32 in
  if m <? 2 ^ 31 then m else m - 2 ^ 32.

Definition size {A : Type} (l : list A) : Z := Z.of_nat (List.length l).

Definition is_empty {A : Type} (l : list A) : bool :=
  match l with [] => true | _ :: _ => false end.

(** ** The log *)

Module MDLog.

Record t : Type := mk {
  journaler : Journaler.t;
  segments : segment_map;
  trimming_segments : list Z;
  num_events : Z;
  unflushed : Z;
  capped : bool;
  writing_subtree_map : bool;
  max_events : Z;
  max_segments : Z;
  waitfor_replay : list Context;
  replay_thread_created : bool;
  (* what the collaborators have seen: events applied to the cache by
     le->replay(mds), and callbacks completed with their result code *)
  replayed : list LogEvent;
  finished : list (Context * Z)
}.

Definition set_journaler (j : Journaler.t) (l : t) : t :=
  mk j (segments l) (trimming_segments l) (num_events l) (unflushed l)
     (capped l) (writing_subtree_map l) (max_events l) (max_segments l)
     (waitfor_replay l) (replay_thread_created l) (replayed l) (finished l).

Definition set_segments (m : segment_map) (l : t) : t :=
  mk (journaler l) m (trimming_segments l) (num_events l) (unflushed l)
     (capped l) (writing_subtree_map l) (max_events l) (max_segments l)
     (waitfor_replay l) (replay_thread_created l) (replayed l) (finished l).

Definition set_trimming_segments (s : list Z) (l : t) : t :=
  mk (journaler l) (segments l) s (num_events l) (unflushed l)
     (capped l) (writing_subtree_map l) (max_events l) (max_segments l)
     (waitfor_replay l) (replay_thread_created l) (replayed l) (finished l).

Definition set_num_events (n : Z) (l : t) : t :=
  mk (journaler l) (segments l) (trimming_segments l) n (unflushed l)
     (capped l) (writing_subtree_map l) (max_events l) (max_segments l)
     (waitfor_replay l) (replay_thread_created l) (replayed l) (finished l).

Definition set_unflushed (n : Z) (l : t) : t :=
  mk (journaler l) (segments l) (trimming_segments l) (num_events l) n
     (capped l) (writing_subtree_map l) (max_events l) (max_segments l)
     (waitfor_replay l) (replay_thread_created l) (replayed l) (finished l).

Definition set_capped (b : bool) (l : t) : t :=
  mk (journaler l) (segments l) (trimming_segments l) (num_events l)
     (unflushed l) b (writing_subtree_map l) (max_events l) (max_segments l)
     (waitfor_replay l) (replay_thread_created l) (replayed l) (finished l).

Definition set_writing_subtree_map (b : bool) (l : t) : t :=
  mk (journaler l) (segments l) (trimming_segments l) (num_events l)
     (unflushed l) (capped l) b (max_events l) (max_segments l)
     (waitfor_replay l) (replay_thread_created l) (replayed l) (finished l).

Definition set_waitfor_replay (w : list Context) (l : t) : t :=
  mk (journaler l) (segments l) (trimming_segments l) (num_events l)
     (unflushed l) (capped l) (writing_subtree_map l) (max_events l)
     (max_segments l) w (replay_thread_created l) (replayed l) (finished l).

Definition set_replay_thread_created (b : bool) (l : t) : t :=
  mk (journaler l) (segments l) (trimming_segments l) (num_events l)
     (unflushed l) (capped l) (writing_subtree_map l) (max_events l)
     (max_segments l) (waitfor_replay l) b (replayed l) (finished l).

Definition set_replayed (r : list LogEvent) (l : t) : t :=
  mk (journaler l) (segments l) (trimming_segments l) (num_events l)
     (unflushed l) (capped l) (writing_subtree_map l) (max_events l)
     (max_segments l) (waitfor_replay l) (replay_thread_created l) r
     (finished l).

Definition set_finished (f : list (Context * Z)) (l : t) : t :=
  mk (journaler l) (segments l) (trimming_segments l) (num_events l)
     (unflushed l) (capped l) (writing_subtree_map l) (max_events l)
     (max_segments l) (waitfor_replay l) (replay_thread_created l)
     (replayed l) f.

(** Modelled from the spec: the constructor is in MDLog.h, which is not
    part of the sources.  A new log has no segments, no events, nothing
    unflushed, is not capped and writes no checkpoint; its budgets come
    from the configuration. *)
Definition init (j : Journaler.t) (max_ev max_seg : Z) : t :=
  mk j [] [] 0 0 false false max_ev max_seg [] false [] [].

Definition get_read_pos (l : t) : Z := Journaler.read_pos (journaler l).
Definition get_write_pos (l : t) : Z := Journaler.write_pos (journaler l).
Definition get_expire_pos (l : t) : Z := Journaler.expire_pos (journaler l).

(** Modelled from the spec: the two accessors are in MDLog.h; the
    maximum key identifies the current segment, and there is none while
    the table is empty. *)
Definition get_current_segment (l : t) : option LogSegment.t :=
  seg_rbegin (segments l).

Definition get_last_segment_offset (l : t) : Z :=
  match seg_rbegin (segments l) with
  | Some s => LogSegment.offset s
  | None => 0
  end.

(** [ls == get_current_segment()] *)
Definition is_current (ls : LogSegment.t) (l : t) : bool :=
  match get_current_segment l with
  | Some s => LogSegment.offset s =? LogSegment.offset ls
  | None => false
  end.

(** [segments.begin()->second == ls] *)
Definition is_oldest (ls : LogSegment.t) (l : t) : bool :=
  match seg_begin (segments l) with
  | Some s => LogSegment.offset s =? LogSegment.offset ls
  | None => false
  end.

(** *** Lifecycle *)

(** [init_journaler] attaches a new streamer. *)
Definition init_journaler (l : t) : t :=
  set_journaler (Journaler.mk false 0 0 0 [] [] []) l.

Definition create (c : option Context) (l : t) : result t :=
  let l := init_journaler l in
  let l := set_journaler (Journaler.reset (journaler l)) l in
  Ok (set_journaler (Journaler.write_head c (journaler l)) l).

Definition append (l : t) : result t :=
  let l := set_journaler
             (Journaler.set_read_pos (get_write_pos l) (journaler l)) l in
  Ok (set_journaler
        (Journaler.set_expire_pos (get_write_pos l) (journaler l)) l).

(** *** Trimming *)

Definition _trimmed (ls : LogSegment.t) (l : t) : result t :=
  if negb (capped l) && is_current ls l then Ok l
  else
    let l := set_num_events (num_events l - LogSegment.num_events ls) l in
    _ <- assert (seg_count (LogSegment.offset ls) (segments l))
           "segments.count(ls->offset)" ;;
    let l := if is_oldest ls l
             then set_journaler
                    (Journaler.set_expire_pos (LogSegment.offset ls)
                       (journaler l)) l
             else l in
    Ok (set_segments (seg_erase (LogSegment.offset ls) (segments l)) l).

Definition try_trim (env : Env) (ls : LogSegment.t) (l : t) : result t :=
  if try_to_expire env ls
  then Ok (set_trimming_segments
             (set_insert (LogSegment.offset ls) (trimming_segments l)) l)
  else _trimmed ls l.

(** The barrier's finisher holds the segment pointer; the segment it
    points to is the table's entry at that offset. *)
Definition _maybe_trimmed (env : Env) (off : Z) (l : t) : result t :=
  _ <- assert (set_count off (trimming_segments l))
         "trimming_segments.count(ls)" ;;
  let l := set_trimming_segments (set_erase off (trimming_segments l)) l in
  match seg_find off (segments l) with
  | Some ls => try_trim env ls l
  | None => Fault "dangling segment"
  end.

(** The loop condition of [trim] after [p != segments.end()]. *)
Definition over_budget (left : Z) (l : t) : bool :=
  ((0 <=? max_events l) && (max_events l <? left))
  || ((0 <=? max_segments l)
      && (max_segments l
          <? int_cast (size (segments l) - size (trimming_segments l)))).

(** The iterator [p] is advanced before [try_trim] can erase the entry
    it pointed to and nothing else is erased, so the entries ahead of
    [p] are the tail of the table as it was on entry.  [ls->num_events]
    is read after [_trimmed] may have deleted [ls]; the count is the one
    the segment held when it was selected. *)
Fixpoint trim_loop (env : Env) (stop : Z) (k : nat)
         (p : list LogSegment.t) (left : Z) (l : t) : result t :=
  match p with
  | [] => Ok l
  | ls :: p' =>
      if over_budget left l then
        if stop <? g_clock_now env k then Ok l
        else if mds_log_max_trimming (g_conf env)
                <=? int_cast (size (trimming_segments l)) then Ok l
        else
          l' <- (if set_count (LogSegment.offset ls) (trimming_segments l)
                 then Ok l else try_trim env ls l) ;;
          trim_loop env stop (S k) p' (left - LogSegment.num_events ls) l'
      else Ok l
  end.

Definition trim (env : Env) (l : t) : result t :=
  if is_empty (segments l) then Ok l
  else
    let stop := g_clock_now env 0 + 2000000 in
    trim_loop env stop 1%nat (segments l) (num_events l) l.

(** *** Callbacks *)

Definition _logged_subtree_map (off : Z) (l : t) : t :=
  set_writing_subtree_map false l.

(** [c->finish(r); delete c].  Modelled from the spec:
    [C_MDL_WroteSubtreeMap] is declared in MDLog.h; it is the completion
    that clears [writing_subtree_map]. *)
Definition finish (c : Context) (r : Z) (l : t) : t :=
  let l := match c with
           | C_MDL_WroteSubtreeMap off => _logged_subtree_map off l
           | C_Caller _ => l
           end in
  set_finished (finished l ++ [(c, r)]) l.

Fixpoint finish_contexts (ls : list Context) (r : Z) (l : t) : t :=
  match ls with
  | [] => l
  | c :: ls' => finish_contexts ls' r (finish c r l)
  end.

(** Modelled from the spec: the streamer completes the callbacks given
    to [flush] once what was appended is durable; the completions run
    under the big lock. *)
Definition journaler_flushed (l : t) : t :=
  let j := journaler l in
  let ls := Journaler.waitfor_flush j in
  let l := set_journaler
             (Journaler.mk (Journaler.active j) (Journaler.expire_pos j)
                (Journaler.read_pos j) (Journaler.write_pos j)
                (Journaler.body j) [] (Journaler.head_waiters j)) l in
  finish_contexts ls 0 l.

(** *** Appending *)

Definition wait_for_sync (env : Env) (c : option Context) (l : t)
  : result t :=
  if mds_log (g_conf env)
  then Ok (set_journaler (Journaler.flush c (journaler l)) l)
  else match c with
       | Some c => Ok (finish c 0 l)
       | None => Fault "null callback"
       end.

(** The cache's [create_subtree_map]. *)
Definition create_subtree_map (env : Env) : LogEvent :=
  mkLogEvent EVENT_SUBTREEMAP (subtree_map_payload env).

(** The test behind "start a new segment?" at the end of [submit_entry];
    [&&] is lazy, so the divisions run only when the first two conjuncts
    hold.  [/] on [off_t] truncates. *)
Definition new_segment_due (env : Env) (l : t) : result bool :=
  let last_seg := get_last_segment_offset l in
  if negb (is_empty (segments l)) && negb (writing_subtree_map l) then
    if period env =? 0 then Fault "division by zero"
    else Ok (negb (Z.quot (get_write_pos l) (period env)
                   =? Z.quot last_seg (period env))
             && (Z.quot (period env) 2 <? get_write_pos l - last_seg))
  else Ok false.

(** [start_new_segment] and [submit_entry] call each other;
    [start_new_segment_with] takes the [submit_entry] it calls. *)
Definition start_new_segment_with
           (submit : LogEvent -> option Context -> t -> result t)
           (env : Env) (onsync : option Context) (l : t) : result t :=
  _ <- assert (negb (writing_subtree_map l)) "!writing_subtree_map" ;;
  let wp := get_write_pos l in
  let l := set_segments (seg_insert (LogSegment.new wp) (segments l)) l in
  let l := set_writing_subtree_map true l in
  let le := create_subtree_map env in
  l <- submit le (Some (C_MDL_WroteSubtreeMap wp)) l ;;
  match onsync with
  | Some c => wait_for_sync env (Some c) l
  | None => Ok l
  end.

(** [submit_entry], with the depth of its nesting as fuel.
    [le->update_segment()] is the event's own bookkeeping in its segment,
    of which the log reads nothing; [delete le] leaves no trace. *)
Fixpoint submit_entry_fuel (fuel : nat) (env : Env) (le : LogEvent)
         (c : option Context) (l : t) : result t :=
  match fuel with
  | O => OutOfFuel
  | S fuel' =>
      if negb (mds_log (g_conf env)) then
        match c with
        | Some c => Ok (finish c 0 l)
        | None => Ok l
        end
      else
        _ <- assert (negb (is_empty (segments l))) "!segments.empty()" ;;
        let l := set_segments (seg_inc_last (segments l)) l in
        let l := set_num_events (num_events l + 1) l in
        _ <- assert (negb (capped l)) "!capped" ;;
        let l := set_journaler (Journaler.append_entry le (journaler l)) l in
        let l := match c with
                 | Some c =>
                     set_journaler
                       (Journaler.flush (Some c) (journaler l))
                       (set_unflushed 0 l)
                 | None => set_unflushed (unflushed l + 1) l
                 end in
        due <- new_segment_due env l ;;
        if due
        then start_new_segment_with (submit_entry_fuel fuel' env) env None l
        else Ok l
  end.

(** The nested [submit_entry] finds [writing_subtree_map] set (or the
    log disabled) and goes no deeper: two levels are all there are,
    see [submit_entry_fuel_enough]. *)
Definition submit_entry : Env -> LogEvent -> option Context -> t -> result t
  := submit_entry_fuel 2.

Definition start_new_segment : Env -> option Context -> t -> result t :=
  fun env => start_new_segment_with (submit_entry env) env.

Definition flush (env : Env) (l : t) : result t :=
  let l := if unflushed l =? 0 then l
           else set_journaler (Journaler.flush None (journaler l)) l in
  let l := set_unflushed 0 l in
  trim env l.

Definition cap (l : t) : result t := Ok (set_capped true l).

(** *** Replay *)

Definition replay (c : option Context) (l : t) : result t :=
  _ <- assert (Journaler.active (journaler l)) "journaler->is_active()" ;;
  let l := set_journaler
             (Journaler.set_read_pos (get_expire_pos l) (journaler l)) l in
  if get_read_pos l =? get_write_pos l then
    match c with
    | Some c => Ok (finish c 0 l)
    | None => Ok l
    end
  else
    let l := match c with
             | Some c => set_waitfor_replay (waitfor_replay l ++ [c]) l
             | None => l
             end in
    _ <- assert (num_events l =? 0) "num_events == 0" ;;
    Ok (set_replay_thread_created true l).

(** The body of the worker's [while (1)].  Nothing but the worker moves
    the stream while it holds the lock, so waiting for a stream that is
    not readable below [write_pos] never ends: [Blocked]. *)
Fixpoint _replay_loop (fuel : nat) (new_expire_pos : Z) (l : t)
  : result (Z * t) :=
  match fuel with
  | O => OutOfFuel
  | S fuel' =>
      let j := journaler l in
      if negb (Journaler.is_readable j)
         && (Journaler.read_pos j <? Journaler.write_pos j)
      then Blocked
      else if negb (Journaler.is_readable j)
              && (Journaler.read_pos j =? Journaler.write_pos j)
      then Ok (new_expire_pos, l)
      else
        _ <- assert (Journaler.is_readable j) "journaler->is_readable()" ;;
        let pos := Journaler.read_pos j in
        match Journaler.try_read_entry j with
        | None => AssertFail "r"
        | Some (le, j') =>
            let l := set_journaler j' l in
            let l := if is_subtreemap (_type le)
                     then set_segments
                            (seg_insert (LogSegment.new pos) (segments l)) l
                     else l in
            if is_empty (segments l)
            then _replay_loop fuel' new_expire_pos l
            else
              let l := set_replayed (replayed l ++ [le]) l in
              let l := set_num_events (num_events l + 1) l in
              let new_expire_pos :=
                if new_expire_pos =? 0 then pos else new_expire_pos in
              _replay_loop fuel' new_expire_pos l
        end
  end.

Definition _replay_thread (fuel : nat) (l : t) : result t :=
  r <- _replay_loop fuel (get_expire_pos l) l ;;
  let (new_expire_pos, l) := r in
  _ <- assert (get_read_pos l =? get_write_pos l)
         "read_pos == write_pos" ;;
  let l := set_journaler
             (Journaler.set_read_pos new_expire_pos (journaler l)) l in
  let l := set_journaler
             (Journaler.set_expire_pos new_expire_pos (journaler l)) l in
  let ls := waitfor_replay l in
  let l := set_waitfor_replay [] l in
  Ok (finish_contexts ls 0 l).

End MDLog.

Import MDLog.

(** * Scenarios: concrete configurations and states *)

Definition env_disabled : Env :=
  mkEnv (mkConfig false 2) 1024 (fun _ => false) (fun _ => 0) [].

Definition journaler_blank : Journaler.t :=
  Journaler.mk false 0 0 0 [] [] [].

Definition log_new : t := init journaler_blank (-1) (-1).


(** The state [submit_entry] has reached when it comes to "start a new
    segment?": the event is counted in the log and in the current segment,
    appended to the stream, and flushed or counted as unflushed. *)
Definition submitted (le : LogEvent) (c : option Context) (l : t) : t :=
  let l := set_segments (seg_inc_last (segments l)) l in
  let l := set_num_events (num_events l + 1) l in
  let l := set_journaler (Journaler.append_entry le (journaler l)) l in
  match c with
  | Some c =>
      set_journaler (Journaler.flush (Some c) (journaler l))
        (set_unflushed 0 l)
  | None => set_unflushed (unflushed l + 1) l
  end.

(** The state in which [start_new_segment] submits the checkpoint. *)
Definition segment_opened (l : t) : t :=
  set_writing_subtree_map true
    (set_segments
       (seg_insert (LogSegment.new (get_write_pos l)) (segments l)) l).

(** A recovered streamer whose read pointer is at the tail while the
    expire pointer is still at 0. *)
Definition log_read_at_tail : t :=
  init (Journaler.mk true 0 100 100 [] [] []) (-1) (-1).

Definition env_enabled : Env :=
  mkEnv (mkConfig true 2) 1024 (fun _ => false) (fun _ => 0) [].

(** One segment at 0 with one event counted, 8 bytes written. *)
Definition log_one_event : t :=
  mk (Journaler.mk true 0 0 8 [] [] []) [LogSegment.mk 0 1] [] 1 1
     false false (-1) (-1) [] false [] [].

(** The table of a [std::map]: keys strictly increasing. *)
Definition wf (l : t) : Prop := increasing (seg_keys (segments l)).

(** The state [_trimmed] returns when it does expire the segment. *)
Definition removed (ls : LogSegment.t) (l : t) : t :=
  let l := set_num_events (num_events l - LogSegment.num_events ls) l in
  let l := if is_oldest ls l
           then set_journaler
                  (Journaler.set_expire_pos (LogSegment.offset ls)
                     (journaler l)) l
           else l in
  set_segments (seg_erase (LogSegment.offset ls) (segments l)) l.

(** Scenario (d): segments at 0, 2048 and 4096, no barrier pending, a
    segment budget of one, no event budget, a clock that stands still. *)
Definition env_no_barrier : Env :=
  mkEnv (mkConfig true 2) 4194304 (fun _ => false) (fun _ => 0) [].

Definition log_three_segments : t :=
  mk (Journaler.mk true 0 0 6000 [] [] [])
     [LogSegment.mk 0 3; LogSegment.mk 2048 4; LogSegment.mk 4096 5]
     [] 12 0 false false (-1) 1 [] false [] [].

(** Scenario (c): period 1024, one segment at 0, 1000 bytes written, and
    an event whose entry takes 104 bytes. *)
Definition log_near_boundary : t :=
  mk (Journaler.mk true 0 0 1000 [] [] []) [LogSegment.mk 0 9] [] 9 0
     false false (-1) (-1) [] false [] [].

Definition event_100 : LogEvent :=
  mkLogEvent (EVENT_OTHER 3) (repeat Byte.x00 100).

(** Scenario (e): a single segment and an event budget it exceeds. *)
Definition log_single_over_budget : t :=
  mk (Journaler.mk true 0 0 400 [] [] []) [LogSegment.mk 0 50] [] 50 0
     false false 10 0 [] false [] [].

(** Scenario (f): a stream of four entries laid end to end from offset 0,
    recovered with [expire_pos] 0; the read pointer and the budgets are
    whatever recovery and the configuration left. *)
Definition stream4 (a b c d : LogEvent) : list (Z * LogEvent) :=
  [ (0, a);
    (encoded_length a, b);
    (encoded_length a + encoded_length b, c);
    (encoded_length a + encoded_length b + encoded_length c, d) ].

Definition log_stream4 (a b c d : LogEvent) (rp max_ev max_seg : Z) : t :=
  init (Journaler.mk true 0 rp
          (encoded_length a + encoded_length b + encoded_length c
           + encoded_length d)
          (stream4 a b c d) [] [])
       max_ev max_seg.

Definition event_A : LogEvent := mkLogEvent (EVENT_OTHER 1) [].
Definition event_B : LogEvent := mkLogEvent (EVENT_OTHER 2) [].
Definition event_C : LogEvent := mkLogEvent EVENT_SUBTREEMAP [].
Definition event_D : LogEvent := mkLogEvent (EVENT_OTHER 3) [].

(** [replay] followed by the run of the worker it started. *)
Definition replay_to_end (fuel : nat) (c : option Context) (l : t)
  : result t :=
  l <- replay c l ;;
  if replay_thread_created l then _replay_thread fuel l else Ok l.

(** The log in the middle of a replay started with one waiting callback:
    the stream [body] up to [wp], the read pointer at [rp], the segments
    rebuilt and the events counted and applied so far. *)
Definition replaying (body : list (Z * LogEvent)) (wp rp : Z)
           (segs : segment_map) (count : Z) (applied : list LogEvent)
           (max_ev max_seg : Z) (cb : Context) : t :=
  mk (Journaler.mk true 0 rp wp body [] []) segs [] count 0 false false
     max_ev max_seg [cb] true applied [].

(** A persisted log as [start_new_segment] and one [submit_entry] leave
    it after [append] at offset 100: the checkpoint at 100, one event
    behind it, recovered with [expire_pos] at 100. *)
Definition log_checkpoint_first : t :=
  init (Journaler.mk true 100 100 108 [(100, event_C); (104, event_D)] [] [])
       (-1) (-1).

(** Scenario (b): on a new log, [create], [start_new_segment], a run of
    [submit_entry] without callback, then [flush].  [durable] says whether
    the checkpoint's flush has completed before the events arrive. *)
Fixpoint submit_all (env : Env) (es : list LogEvent) (l : t) : result t :=
  match es with
  | [] => Ok l
  | e :: es' => l <- submit_entry env e None l ;; submit_all env es' l
  end.

Definition single_segment_run (env : Env) (durable : bool)
           (es : list LogEvent) (l : t) : result t :=
  l <- create None l ;;
  l <- start_new_segment env None l ;;
  let l := if durable then journaler_flushed l else l in
  l <- submit_all env es l ;;
  flush env l.

(** A log whose only segment starts at 0 and holds all [n] events, with
    [w] bytes written and nothing expired. *)
Definition in_first_segment (n w : Z) (l : t) : Prop :=
  segments l = [LogSegment.mk 0 n]
  /\ num_events l = n
  /\ capped l = false
  /\ get_write_pos l = w
  /\ get_expire_pos l = 0.

(** The bytes a run of events takes in the stream. *)
Fixpoint total_length (es : list LogEvent) : Z :=
  match es with
  | [] => 0
  | e :: es' => encoded_length e + total_length es'
  end.

(** The same log with a segment budget of zero ([max_segments] is set
    from the configuration when the log is built). *)
Definition set_max_segments_zero (l : t) : t :=
  mk (journaler l) (segments l) (trimming_segments l) (num_events l)
     (unflushed l) (capped l) (writing_subtree_map l) (max_events l) 0
     (waitfor_replay l) (replay_thread_created l) (replayed l) (finished l).

(** The stream that holds the entries [es] end to end from offset [p]. *)
Fixpoint laid_out (p : Z) (es : list LogEvent) : list (Z * LogEvent) :=
  match es with
  | [] => []
  | e :: es' => (p, e) :: laid_out (p + encoded_length e) es'
  end.

(** The entries from the first checkpoint on, and the positions at which
    the checkpoints of a stream laid out from [p] start. *)
Fixpoint from_first_checkpoint (es : list LogEvent) : list LogEvent :=
  match es with
  | [] => []
  | e :: es' =>
      if is_subtreemap (_type e) then e :: es' else from_first_checkpoint es'
  end.

Fixpoint checkpoint_positions (p : Z) (es : list LogEvent) : list Z :=
  match es with
  | [] => []
  | e :: es' =>
      (if is_subtreemap (_type e) then [p] else [])
      ++ checkpoint_positions (p + encoded_length e) es'
  end.

(** One turn of the worker's loop that reads the entry [le] at
    [read_pos]: the state it leaves and the value of [new_expire_pos]. *)
Definition replay_turn (le : LogEvent) (l : t) : t :=
  let pos := get_read_pos l in
  let l1 := set_journaler
              (Journaler.set_read_pos (pos + encoded_length le) (journaler l))
              l in
  let l2 := if is_subtreemap (_type le)
            then set_segments
                   (seg_insert (LogSegment.new pos) (segments l1)) l1
            else l1 in
  if is_empty (segments l2) then l2
  else set_num_events (num_events l2 + 1)
         (set_replayed (replayed l2 ++ [le]) l2).

Definition replay_turn_applies (le : LogEvent) (l : t) : bool :=
  is_subtreemap (_type le) || negb (is_empty (segments l)).

Definition replay_turn_nep (le : LogEvent) (nep : Z) (l : t) : Z :=
  if replay_turn_applies le l
  then (if nep =? 0 then get_read_pos l else nep)
  else nep.

(** The callbacks completed when [replay] is given [c]. *)
Definition completed (c : option Context) : list (Context * Z) :=
  match c with Some c => [(c, 0)] | None => [] end.

(** The state in which [replay] leaves a non-empty journal to the
    worker. *)
Definition replay_started (c : option Context) (l : t) : t :=
  set_replay_thread_created true
    (match c with
     | Some c0 =>
         set_waitfor_replay (waitfor_replay l ++ [c0])
           (set_journaler
              (Journaler.set_read_pos (get_expire_pos l) (journaler l)) l)
     | None =>
         set_journaler
           (Journaler.set_read_pos (get_expire_pos l) (journaler l)) l
     end).
(** * Properties *)

(** ** The result monad *)

Lemma bind_Ok {A B : Type} (r : result A) (k : A -> result B) (b : B) :
  bind r k = Ok b -> exists a, r = Ok a /\ k a = Ok b.
Proof.
  destruct r as [a| | | |]; simpl; intros H; try discriminate.
  exists a; split; [reflexivity | exact H].
Qed.

Lemma assert_Ok (b : bool) (w : string) (u : unit) :
  assert b w = Ok u -> b = true.
Proof. destruct b; simpl; [reflexivity | discriminate]. Qed.

Lemma assert_true (w : string) : assert true w = Ok tt.
Proof. reflexivity. Qed.

(** ** The disabled log *)

Lemma finish_fields (c : Context) (r : Z) (l : t) :
  finished (finish c r l) = finished l ++ [(c, r)]
  /\ num_events (finish c r l) = num_events l
  /\ segments (finish c r l) = segments l
  /\ journaler (finish c r l) = journaler l
  /\ unflushed (finish c r l) = unflushed l
  /\ capped (finish c r l) = capped l
  /\ trimming_segments (finish c r l) = trimming_segments l.
Proof. destruct c; simpl; repeat split; reflexivity. Qed.

Lemma finish_caller (id : nat) (r : Z) (l : t) :
  finish (C_Caller id) r l = set_finished (finished l ++ [(C_Caller id, r)]) l.
Proof. reflexivity. Qed.

(** C8.  With [g_conf.mds_log] off, [submit_entry] and [wait_for_sync]
    complete the supplied callback at once with result 0 and do nothing
    else: the event count, the segment table, the streamer (so nothing is
    encoded or appended), the unflushed count, the cap and the trimming
    set are as before, and the only trace left is the completed callback.
    For a caller's callback the whole log state is unchanged apart from
    that trace; without a callback [submit_entry] returns the state as it
    was. *)
Theorem disabled_log_short_circuits :
  forall (env : Env) (le : LogEvent) (c : Context) (l : t),
    mds_log (g_conf env) = false ->
    (exists l1,
        submit_entry env le (Some c) l = Ok l1
        /\ finished l1 = finished l ++ [(c, 0)]
        /\ num_events l1 = num_events l
        /\ segments l1 = segments l
        /\ journaler l1 = journaler l
        /\ unflushed l1 = unflushed l
        /\ capped l1 = capped l
        /\ trimming_segments l1 = trimming_segments l
        /\ (forall id, c = C_Caller id ->
                       l1 = set_finished (finished l ++ [(c, 0)]) l))
    /\ submit_entry env le None l = Ok l
    /\ (exists l2,
           wait_for_sync env (Some c) l = Ok l2
           /\ finished l2 = finished l ++ [(c, 0)]
           /\ num_events l2 = num_events l
           /\ segments l2 = segments l
           /\ journaler l2 = journaler l
           /\ unflushed l2 = unflushed l
           /\ capped l2 = capped l
           /\ trimming_segments l2 = trimming_segments l
           /\ (forall id, c = C_Caller id ->
                          l2 = set_finished (finished l ++ [(c, 0)]) l)).
Proof.
  intros env le c l Hoff.
  pose proof (finish_fields c 0 l) as (F1 & F2 & F3 & F4 & F5 & F6 & F7).
  split; [| split].
  - exists (finish c 0 l).
    unfold submit_entry; simpl. rewrite Hoff; simpl.
    repeat (split; [assumption || reflexivity |]).
    intros id ->. apply finish_caller.
  - unfold submit_entry; simpl. rewrite Hoff. reflexivity.
  - exists (finish c 0 l).
    unfold wait_for_sync. rewrite Hoff.
    repeat (split; [assumption || reflexivity |]).
    intros id ->. apply finish_caller.
Qed.

Lemma disabled_log_short_circuits_witness :
  submit_entry env_disabled (mkLogEvent (EVENT_OTHER 1) []) None log_new
  = Ok log_new.
Proof.
  apply (disabled_log_short_circuits env_disabled
           (mkLogEvent (EVENT_OTHER 1) []) (C_Caller 0) log_new).
  reflexivity.
Defined.

(** ** [submit_entry] and [start_new_segment] unfolded *)

Lemma submit_entry_fuel_S (n : nat) (env : Env) (le : LogEvent)
      (c : option Context) (l : t) :
  mds_log (g_conf env) = true ->
  submit_entry_fuel (S n) env le c l =
  (_ <- assert (negb (is_empty (segments l))) "!segments.empty()" ;;
   _ <- assert (negb (capped l)) "!capped" ;;
   due <- new_segment_due env (submitted le c l) ;;
   if due
   then start_new_segment_with (submit_entry_fuel n env) env None
          (submitted le c l)
   else Ok (submitted le c l)).
Proof. intros H. simpl. rewrite H. reflexivity. Qed.

Lemma submitted_fields (le : LogEvent) (c : option Context) (l : t) :
  segments (submitted le c l) = seg_inc_last (segments l)
  /\ num_events (submitted le c l) = num_events l + 1
  /\ get_write_pos (submitted le c l) = get_write_pos l + encoded_length le
  /\ get_expire_pos (submitted le c l) = get_expire_pos l
  /\ Journaler.active (journaler (submitted le c l))
     = Journaler.active (journaler l)
  /\ writing_subtree_map (submitted le c l) = writing_subtree_map l
  /\ capped (submitted le c l) = capped l
  /\ trimming_segments (submitted le c l) = trimming_segments l.
Proof. destruct c; simpl; repeat split; reflexivity. Qed.

Lemma new_segment_due_writing (env : Env) (l : t) :
  writing_subtree_map l = true -> new_segment_due env l = Ok false.
Proof.
  intros H. unfold new_segment_due. rewrite H.
  rewrite andb_false_r. reflexivity.
Qed.

(** A submit that finds the checkpoint guard set, or the log disabled,
    never reaches the nested call. *)
Lemma submit_entry_fuel_flat (n : nat) (env : Env) (le : LogEvent)
      (c : option Context) (l : t) :
  mds_log (g_conf env) = false \/ writing_subtree_map l = true ->
  submit_entry_fuel (S n) env le c l = submit_entry_fuel 1 env le c l.
Proof.
  intros [H | H].
  - simpl. rewrite H. reflexivity.
  - destruct (mds_log (g_conf env)) eqn:E.
    + rewrite !submit_entry_fuel_S by assumption.
      rewrite new_segment_due_writing
        by (destruct (submitted_fields le c l) as (_&_&_&_&_&W&_); congruence).
      reflexivity.
    + simpl. rewrite E. reflexivity.
Qed.

Lemma start_new_segment_with_flat (n : nat) (env : Env)
      (onsync : option Context) (l : t) :
  start_new_segment_with (submit_entry_fuel (S n) env) env onsync l
  = start_new_segment_with (submit_entry_fuel 1 env) env onsync l.
Proof.
  unfold start_new_segment_with.
  destruct (assert (negb (writing_subtree_map l)) _); cbn [bind];
    [| reflexivity ..].
  rewrite (submit_entry_fuel_flat n) by (right; reflexivity).
  reflexivity.
Qed.

(** Two levels of [submit_entry] are all the code can nest: more fuel
    changes nothing, so [submit_entry] never runs out of it. *)
Lemma submit_entry_fuel_enough (n : nat) (env : Env) (le : LogEvent)
      (c : option Context) (l : t) :
  submit_entry_fuel (S (S n)) env le c l = submit_entry env le c l.
Proof.
  unfold submit_entry.
  destruct (mds_log (g_conf env)) eqn:E.
  - rewrite !submit_entry_fuel_S by assumption.
    rewrite start_new_segment_with_flat. reflexivity.
  - simpl. rewrite E. reflexivity.
Qed.

Lemma submit_entry_enabled (env : Env) (le : LogEvent)
      (c : option Context) (l : t) :
  mds_log (g_conf env) = true ->
  submit_entry env le c l =
  (_ <- assert (negb (is_empty (segments l))) "!segments.empty()" ;;
   _ <- assert (negb (capped l)) "!capped" ;;
   due <- new_segment_due env (submitted le c l) ;;
   if due
   then start_new_segment env None (submitted le c l)
   else Ok (submitted le c l)).
Proof.
  intros H. unfold submit_entry, start_new_segment.
  rewrite submit_entry_fuel_S by assumption.
  rewrite <- (start_new_segment_with_flat 1). reflexivity.
Qed.

Lemma seg_inc_last_nonempty (m : segment_map) :
  is_empty (seg_inc_last m) = is_empty m.
Proof. destruct m as [|x [|y m]]; reflexivity. Qed.

Lemma seg_insert_nonempty (s : LogSegment.t) (m : segment_map) :
  is_empty (seg_insert s m) = false.
Proof.
  destruct m as [|x m]; simpl; [reflexivity |].
  destruct (_ <? _); [reflexivity |]. destruct (_ =? _); reflexivity.
Qed.

(** With the log enabled, [start_new_segment] opens the segment at
    [write_pos] and submits the checkpoint into it; the nested submit
    starts nothing further. *)
Lemma start_new_segment_enabled (env : Env) (l : t) :
  mds_log (g_conf env) = true ->
  writing_subtree_map l = false ->
  capped l = false ->
  start_new_segment env None l =
  Ok (submitted (create_subtree_map env)
        (Some (C_MDL_WroteSubtreeMap (get_write_pos l))) (segment_opened l)).
Proof.
  intros He Hw Hc.
  unfold start_new_segment, start_new_segment_with.
  rewrite Hw; simpl bind.
  rewrite submit_entry_enabled by assumption.
  change (segments (set_writing_subtree_map true ?x)) with (segments x).
  cbn [segments set_segments set_writing_subtree_map capped].
  rewrite seg_insert_nonempty, Hc. simpl bind.
  rewrite new_segment_due_writing by reflexivity.
  reflexivity.
Qed.

Lemma encoded_length_pos (le : LogEvent) : 4 <= encoded_length le.
Proof. unfold encoded_length. lia. Qed.

Lemma new_segment_due_true (env : Env) (l : t) :
  new_segment_due env l = Ok true ->
  is_empty (segments l) = false
  /\ writing_subtree_map l = false
  /\ period env <> 0
  /\ Z.quot (get_write_pos l) (period env)
     <> Z.quot (get_last_segment_offset l) (period env)
  /\ Z.quot (period env) 2 < get_write_pos l - get_last_segment_offset l.
Proof.
  unfold new_segment_due.
  destruct (is_empty (segments l)); [discriminate |].
  destruct (writing_subtree_map l); [discriminate |].
  cbn [negb andb].
  destruct (Z.eqb_spec (period env) 0) as [|Hp]; [discriminate |].
  intros H. injection H as H. apply andb_true_iff in H. destruct H as [H1 H2].
  apply negb_true_iff, Z.eqb_neq in H1. apply Z.ltb_lt in H2.
  repeat split; assumption.
Qed.

Lemma segment_opened_fields (l : t) :
  segments (segment_opened l)
  = seg_insert (LogSegment.new (get_write_pos l)) (segments l)
  /\ num_events (segment_opened l) = num_events l
  /\ get_write_pos (segment_opened l) = get_write_pos l
  /\ get_expire_pos (segment_opened l) = get_expire_pos l
  /\ Journaler.active (journaler (segment_opened l))
     = Journaler.active (journaler l)
  /\ writing_subtree_map (segment_opened l) = true
  /\ capped (segment_opened l) = capped l
  /\ trimming_segments (segment_opened l) = trimming_segments l.
Proof. repeat split; reflexivity. Qed.

(** ** [create] *)

(** C9 as the claim has it fails: on a new log [create] returns with the
    segment table empty. *)
Lemma create_table_empty_counterexample :
  exists l, create (Some (C_Caller 0)) log_new = Ok l /\ segments l = [].
Proof. eexists. split; reflexivity. Qed.

Lemma start_new_segment_opens (env : Env) (onsync : option Context) (l : t) :
  writing_subtree_map l = false ->
  capped l = false ->
  exists l2,
    start_new_segment env onsync l = Ok l2 /\ is_empty (segments l2) = false.
Proof.
  intros Hw Hc. unfold start_new_segment, start_new_segment_with.
  rewrite Hw. cbn [negb assert bind]. fold (segment_opened l).
  destruct (segment_opened_fields l) as (S1 & _ & _ & _ & _ & W1 & C1 & _).
  destruct (mds_log (g_conf env)) eqn:E.
  - rewrite submit_entry_enabled by assumption.
    rewrite S1, seg_insert_nonempty, C1, Hc. cbn [negb assert bind].
    rewrite new_segment_due_writing by exact W1. cbn [bind].
    match goal with
    | |- context [Ok (submitted ?e ?k ?s)] =>
        destruct (submitted_fields e k s) as (S2 & _);
        set (l1 := submitted e k s) in *
    end.
    assert (N : is_empty (segments l1) = false)
      by (rewrite S2, seg_inc_last_nonempty, S1; apply seg_insert_nonempty).
    destruct onsync as [c0|].
    + unfold wait_for_sync. rewrite E. eexists. split; [reflexivity | exact N].
    + eexists. split; [reflexivity | exact N].
  - assert (Sub : forall le c0 l0,
               submit_entry env le (Some c0) l0 = Ok (finish c0 0 l0)).
    { intros le c0 l0. unfold submit_entry. cbn [submit_entry_fuel].
      rewrite E. reflexivity. }
    rewrite Sub. cbn [bind].
    match goal with
    | |- context [finish ?k 0 ?s] =>
        destruct (finish_fields k 0 s) as (_ & _ & S2 & _);
        set (l1 := finish k 0 s) in *
    end.
    assert (N : is_empty (segments l1) = false)
      by (rewrite S2, S1; apply seg_insert_nonempty).
    destruct onsync as [c0|].
    + unfold wait_for_sync. rewrite E. eexists. split; [reflexivity |].
      destruct (finish_fields c0 0 l1) as (_ & _ & S3 & _). rewrite S3.
      exact N.
    + eexists. split; [reflexivity | exact N].
Qed.

(** C9, amended.  [create] attaches and resets the streamer and leaves
    the segment table as it was, so after [create] on a new log the table
    is empty and no event is counted; the table is non-empty once
    [start_new_segment] has run on the created log, which it does without
    failing. *)
Theorem create_leaves_segments :
  forall (env : Env) (c onsync : option Context) (l : t),
    exists l1,
      create c l = Ok l1
      /\ segments l1 = segments l
      /\ num_events l1 = num_events l
      /\ get_expire_pos l1 = 0 /\ get_read_pos l1 = 0 /\ get_write_pos l1 = 0
      /\ forall (j : Journaler.t) (max_ev max_seg : Z),
          l = init j max_ev max_seg ->
          segments l1 = []
          /\ exists l2, start_new_segment env onsync l1 = Ok l2
                        /\ segments l2 <> [].
Proof.
  intros env c onsync l. eexists. split; [reflexivity |].
  repeat (split; [destruct c; reflexivity |]).
  intros j me ms ->. split; [destruct c; reflexivity |].
  match goal with
  | |- exists l2, start_new_segment _ _ ?s = _ /\ _ =>
      destruct (start_new_segment_opens env onsync s) as (l2 & E & N);
      [destruct c; reflexivity | destruct c; reflexivity |]
  end.
  exists l2. split; [exact E |].
  intros H. rewrite H in N. discriminate.
Qed.

Lemma create_leaves_segments_witness :
  exists l1,
    create None log_new = Ok l1
    /\ segments l1 = []
    /\ exists l2, start_new_segment env_enabled None l1 = Ok l2
                  /\ segments l2 <> [].
Proof.
  destruct (create_leaves_segments env_enabled None None log_new)
    as (l1 & H1 & _ & _ & _ & _ & _ & H2).
  exists l1. split; [exact H1 |].
  exact (H2 journaler_blank (-1) (-1) eq_refl).
Defined.

(** ** [replay] *)

(** C6 as the claim has it fails: with [read_pos == write_pos] but
    [expire_pos] behind, [replay] rewinds the read pointer, queues the
    callback instead of completing it, and starts the worker. *)
Lemma replay_read_at_tail_counterexample :
  get_read_pos log_read_at_tail = get_write_pos log_read_at_tail
  /\ exists l,
      replay (Some (C_Caller 0)) log_read_at_tail = Ok l
      /\ replay_thread_created l = true
      /\ finished l = []
      /\ waitfor_replay l = [C_Caller 0].
Proof. split; [reflexivity |]. eexists. repeat split. Qed.

(** C6, amended.  [replay] first sets [read_pos] to [expire_pos], in
    every case, and tests for the empty log afterwards: if
    [expire_pos == write_pos] at the call, the callback is completed at
    once with result 0, nothing is queued and no worker is started. *)
Theorem replay_empty_log :
  forall (c : Context) (l : t),
    Journaler.active (journaler l) = true ->
    (get_expire_pos l = get_write_pos l ->
     exists l',
       replay (Some c) l = Ok l'
       /\ finished l' = finished l ++ [(c, 0)]
       /\ replay_thread_created l' = replay_thread_created l
       /\ waitfor_replay l' = waitfor_replay l
       /\ num_events l' = num_events l
       /\ segments l' = segments l)
    /\ (forall (oc : option Context) (l' : t),
           replay oc l = Ok l' -> get_read_pos l' = get_expire_pos l).
Proof.
  intros c l Ha. split.
  - intros He. unfold replay. rewrite Ha. cbn [assert bind].
    unfold get_read_pos, get_write_pos, get_expire_pos in *.
    cbn [journaler set_journaler Journaler.set_read_pos Journaler.read_pos
           Journaler.write_pos].
    rewrite He, Z.eqb_refl.
    eexists. split; [reflexivity |].
    destruct c; repeat split; reflexivity.
  - intros oc l' H. unfold replay in H. rewrite Ha in H. cbn [assert bind] in H.
    match type of H with
    | (if ?b then _ else _) = _ => destruct b
    end.
    + destruct oc as [[|]|]; inversion H; reflexivity.
    + apply bind_Ok in H. destruct H as (u & _ & H).
      destruct oc; inversion H; reflexivity.
Qed.

Lemma replay_empty_log_witness :
  exists l',
    replay (Some (C_Caller 0)) (init (Journaler.reset journaler_blank) 3 4)
    = Ok l'
    /\ finished l' = [(C_Caller 0, 0)]
    /\ replay_thread_created l' = false.
Proof.
  destruct (replay_empty_log (C_Caller 0)
              (init (Journaler.reset journaler_blank) 3 4) eq_refl)
    as (H & _).
  destruct (H eq_refl) as (l' & H1 & H2 & H3 & _).
  exists l'. repeat split; assumption.
Defined.

(** ** What a successful [submit_entry] leaves behind *)

(** The two ways an enabled [submit_entry] can return. *)
Lemma submit_entry_cases (env : Env) (le : LogEvent) (c : option Context)
      (l l' : t) :
  mds_log (g_conf env) = true ->
  submit_entry env le c l = Ok l' ->
  is_empty (segments l) = false /\ capped l = false
  /\ ((new_segment_due env (submitted le c l) = Ok false
       /\ l' = submitted le c l)
      \/ (new_segment_due env (submitted le c l) = Ok true
          /\ l' = submitted (create_subtree_map env)
                    (Some (C_MDL_WroteSubtreeMap
                             (get_write_pos (submitted le c l))))
                    (segment_opened (submitted le c l)))).
Proof.
  intros He H. rewrite submit_entry_enabled in H by assumption.
  apply bind_Ok in H. destruct H as (u1 & A1 & H).
  apply bind_Ok in H. destruct H as (u2 & A2 & H).
  apply bind_Ok in H. destruct H as (due & D & H).
  apply assert_Ok, negb_true_iff in A1. apply assert_Ok, negb_true_iff in A2.
  split; [exact A1 |]. split; [exact A2 |].
  destruct due.
  - right. split; [exact D |].
    destruct (new_segment_due_true _ _ D) as (_ & W & _).
    rewrite start_new_segment_enabled in H; try assumption.
    + congruence.
    + destruct (submitted_fields le c l) as (_&_&_&_&_&_&C&_). congruence.
  - left. split; [exact D | congruence].
Qed.

Lemma submit_entry_advances (env : Env) (le : LogEvent) (c : option Context)
      (l l' : t) :
  mds_log (g_conf env) = true ->
  submit_entry env le c l = Ok l' ->
  num_events l < num_events l'
  /\ get_write_pos l < get_write_pos l'
  /\ get_expire_pos l' = get_expire_pos l
  /\ Journaler.active (journaler l') = Journaler.active (journaler l).
Proof.
  intros He H.
  destruct (submit_entry_cases _ _ _ _ _ He H) as (_ & _ & [[_ ->] | [_ ->]]).
  - destruct (submitted_fields le c l) as (_ & N & W & X & A & _).
    pose proof (encoded_length_pos le). repeat split; try congruence; lia.
  - match goal with
    | |- context [submitted ?e ?k (segment_opened ?s)] =>
        destruct (submitted_fields e k (segment_opened s))
          as (_ & N2 & W2 & X2 & A2 & _);
        destruct (segment_opened_fields s) as (_ & N1 & W1 & X1 & A1 & _);
        pose proof (encoded_length_pos e)
    end.
    destruct (submitted_fields le c l) as (_ & N & W & X & A & _).
    pose proof (encoded_length_pos le).
    repeat split; try congruence; lia.
Qed.

Lemma replay_nonempty (c : option Context) (l : t) :
  Journaler.active (journaler l) = true ->
  get_expire_pos l <> get_write_pos l ->
  replay c l
  = (_ <- assert (num_events l =? 0) "num_events == 0" ;;
     Ok (set_replay_thread_created true
           (match c with
            | Some c0 =>
                set_waitfor_replay (waitfor_replay l ++ [c0])
                  (set_journaler
                     (Journaler.set_read_pos (get_expire_pos l)
                        (journaler l)) l)
            | None =>
                set_journaler
                  (Journaler.set_read_pos (get_expire_pos l)
                     (journaler l)) l
            end))).
Proof.
  intros Ha Hne. unfold replay. rewrite Ha. cbn [assert bind].
  unfold get_read_pos, get_write_pos, get_expire_pos in *.
  cbn [journaler set_journaler Journaler.set_read_pos Journaler.read_pos
         Journaler.write_pos].
  destruct (Z.eqb_spec (Journaler.expire_pos (journaler l))
              (Journaler.write_pos (journaler l))); [contradiction |].
  destruct c; reflexivity.
Qed.

Lemma replay_counted_fails (c : option Context) (l : t) :
  Journaler.active (journaler l) = true ->
  get_expire_pos l <> get_write_pos l ->
  num_events l <> 0 ->
  replay c l = AssertFail "num_events == 0".
Proof.
  intros Ha Hne Hn. rewrite replay_nonempty by assumption.
  destruct (Z.eqb_spec (num_events l) 0); [contradiction | reflexivity].
Qed.

(** C10.  On a non-empty journal ([expire_pos] differs from [write_pos])
    [replay] asserts [num_events == 0]: with any event counted it fails
    that assertion, with none it starts the worker.  So [replay] called
    after a successful [submit_entry], on an enabled log with an active
    streamer whose count was not negative and whose [expire_pos] was not
    beyond [write_pos], is a failed assertion. *)
Theorem replay_requires_no_events :
  (forall (c : option Context) (l : t),
      Journaler.active (journaler l) = true ->
      get_expire_pos l <> get_write_pos l ->
      (num_events l <> 0 -> replay c l = AssertFail "num_events == 0")
      /\ (num_events l = 0 ->
          exists l', replay c l = Ok l' /\ replay_thread_created l' = true))
  /\ (forall (env : Env) (le : LogEvent) (c0 c : option Context) (l0 l : t),
         mds_log (g_conf env) = true ->
         Journaler.active (journaler l0) = true ->
         0 <= num_events l0 ->
         get_expire_pos l0 <= get_write_pos l0 ->
         submit_entry env le c0 l0 = Ok l ->
         replay c l = AssertFail "num_events == 0").
Proof.
  split.
  - intros c l Ha Hne. split.
    + apply replay_counted_fails; assumption.
    + intros Hn. rewrite replay_nonempty, Hn by assumption. cbn.
      eexists. split; [reflexivity |]. destruct c; reflexivity.
  - intros env le c0 c l0 l He Ha Hn Hx Hs.
    destruct (submit_entry_advances _ _ _ _ _ He Hs) as (N & W & X & A).
    apply replay_counted_fails; [congruence | lia | lia].
Qed.

Lemma replay_requires_no_events_witness :
  exists l,
    submit_entry env_enabled (mkLogEvent (EVENT_OTHER 7) []) None
      log_one_event = Ok l
    /\ replay None l = AssertFail "num_events == 0".
Proof.
  eexists. split; [reflexivity |].
  apply (proj2 replay_requires_no_events env_enabled
           (mkLogEvent (EVENT_OTHER 7) []) None None log_one_event);
    [reflexivity | reflexivity | discriminate | discriminate | reflexivity].
Defined.

(** ** The segment table as a map *)

Lemma seg_count_In (k : Z) (m : segment_map) :
  seg_count k m = true <-> In k (seg_keys m).
Proof.
  unfold seg_count, seg_keys. rewrite existsb_exists, in_map_iff.
  split; intros (x & H1 & H2).
  - exists x. apply Z.eqb_eq in H2. split; assumption.
  - exists x. split; [assumption | apply Z.eqb_eq; assumption].
Qed.

Lemma seg_count_inc_last (k : Z) (m : segment_map) :
  seg_count k (seg_inc_last m) = seg_count k m.
Proof.
  induction m as [|x [|y m] IH]; [reflexivity | reflexivity |].
  change (seg_inc_last (x :: y :: m)) with (x :: seg_inc_last (y :: m)).
  unfold seg_count in *. cbn [existsb]. cbn [existsb] in IH.
  rewrite IH. reflexivity.
Qed.

Lemma seg_count_insert (k : Z) (s : LogSegment.t) (m : segment_map) :
  seg_count k (seg_insert s m)
  = (LogSegment.offset s =? k) || seg_count k m.
Proof.
  unfold seg_count. induction m as [|x m IH]; cbn [seg_insert existsb].
  - reflexivity.
  - destruct (Z.ltb_spec (LogSegment.offset s) (LogSegment.offset x)).
    + reflexivity.
    + destruct (Z.eqb_spec (LogSegment.offset s) (LogSegment.offset x))
        as [E|E]; cbn [existsb].
      * rewrite <- E. destruct (LogSegment.offset s =? k); reflexivity.
      * rewrite IH.
        destruct (LogSegment.offset x =? k), (LogSegment.offset s =? k);
          reflexivity.
Qed.

Lemma seg_rbegin_inc_last (m : segment_map) :
  seg_rbegin (seg_inc_last m)
  = option_map LogSegment.inc_num_events (seg_rbegin m).
Proof.
  induction m as [|x [|y m] IH]; [reflexivity | reflexivity |].
  change (seg_inc_last (x :: y :: m)) with (x :: seg_inc_last (y :: m)).
  change (seg_rbegin (x :: y :: m)) with (seg_rbegin (y :: m)).
  rewrite <- IH.
  destruct (seg_inc_last (y :: m)) eqn:E; [| reflexivity].
  pose proof (seg_inc_last_nonempty (y :: m)) as N. rewrite E in N.
  discriminate.
Qed.

Lemma last_offset_submitted (le : LogEvent) (c : option Context) (l : t) :
  get_last_segment_offset (submitted le c l) = get_last_segment_offset l.
Proof.
  unfold get_last_segment_offset.
  destruct (submitted_fields le c l) as (S & _). rewrite S.
  rewrite seg_rbegin_inc_last. destruct (seg_rbegin (segments l)); reflexivity.
Qed.

(** ** The segment-boundary policy *)

Lemma new_segment_due_eq (env : Env) (l : t) :
  is_empty (segments l) = false ->
  writing_subtree_map l = false ->
  period env <> 0 ->
  new_segment_due env l
  = Ok (negb (Z.quot (get_write_pos l) (period env)
              =? Z.quot (get_last_segment_offset l) (period env))
        && (Z.quot (period env) 2
            <? get_write_pos l - get_last_segment_offset l)).
Proof.
  intros He Hw Hp. unfold new_segment_due. rewrite He, Hw. cbn [negb andb].
  destruct (Z.eqb_spec (period env) 0); [contradiction | reflexivity].
Qed.

(** C4.  An accepted submit (log enabled, table non-empty, not capped,
    non-zero period, no segment beyond [write_pos]) starts a new segment,
    that is, leaves in the table a segment at the [write_pos] reached by
    the append, if and only if [writing_subtree_map] was not set and both
    (i) [write_pos / period] differs from [last_segment_offset / period]
    and (ii) [write_pos - last_segment_offset] exceeds [period / 2]. *)
Theorem new_segment_policy :
  forall (env : Env) (le : LogEvent) (c : option Context) (l : t),
    mds_log (g_conf env) = true ->
    period env <> 0 ->
    is_empty (segments l) = false ->
    capped l = false ->
    (forall k, In k (seg_keys (segments l)) -> k <= get_write_pos l) ->
    let write_pos := get_write_pos l + encoded_length le in
    let last_seg := get_last_segment_offset l in
    exists l',
      submit_entry env le c l = Ok l'
      /\ (seg_count write_pos (segments l') = true
          <-> (writing_subtree_map l = false
               /\ Z.quot write_pos (period env)
                  <> Z.quot last_seg (period env)
               /\ Z.quot (period env) 2 < write_pos - last_seg)).
Proof.
  intros env le c l He Hp Hs Hc Hk wp last.
  assert (Hfresh : seg_count wp (segments l) = false).
  { destruct (seg_count wp (segments l)) eqn:E; [| reflexivity].
    apply seg_count_In, Hk in E. pose proof (encoded_length_pos le).
    subst wp. lia. }
  destruct (submitted_fields le c l) as (S & _ & W & _ & _ & Wsm & C & _).
  rewrite submit_entry_enabled by assumption.
  rewrite Hs, Hc. cbn [negb assert bind].
  destruct (writing_subtree_map l) eqn:Ew.
  - rewrite new_segment_due_writing by congruence. cbn [bind].
    eexists. split; [reflexivity |].
    rewrite S, seg_count_inc_last, Hfresh.
    split; [discriminate | intros (H & _); discriminate].
  - rewrite new_segment_due_eq;
      [| rewrite S, seg_inc_last_nonempty; assumption | congruence
       | assumption].
    rewrite W, last_offset_submitted. fold wp last. cbn [bind].
    destruct (Z.eqb_spec (Z.quot wp (period env)) (Z.quot last (period env)))
      as [Eq|Eq]; cbn [negb andb].
    + eexists. split; [reflexivity |].
      rewrite S, seg_count_inc_last, Hfresh.
      split; [discriminate | intros (_ & H & _); contradiction].
    + destruct (Z.ltb_spec (Z.quot (period env) 2) (wp - last)) as [Lt|Ge].
      * rewrite start_new_segment_enabled by congruence.
        eexists. split; [reflexivity |].
        match goal with
        | |- context [submitted ?e ?k (segment_opened ?s)] =>
            destruct (submitted_fields e k (segment_opened s)) as (S2 & _);
            destruct (segment_opened_fields s) as (S1 & _)
        end.
        rewrite S2, seg_count_inc_last, S1, seg_count_insert, W.
        cbn [LogSegment.new LogSegment.offset]. fold wp.
        rewrite Z.eqb_refl. cbn [orb].
        split; [intros _; repeat split; assumption | reflexivity].
      * eexists. split; [reflexivity |].
        rewrite S, seg_count_inc_last, Hfresh.
        split; [discriminate | intros (_ & _ & H); lia].
Qed.

Lemma new_segment_policy_witness :
  exists l',
    submit_entry env_enabled event_100 None log_near_boundary = Ok l'
    /\ (seg_count 1104 (segments l') = true
        <-> (false = false
             /\ Z.quot 1104 1024 <> Z.quot 0 1024
             /\ Z.quot 1024 2 < 1104 - 0)).
Proof.
  apply (new_segment_policy env_enabled event_100 None log_near_boundary).
  - reflexivity.
  - discriminate.
  - reflexivity.
  - reflexivity.
  - intros k [<- | []]. vm_compute. discriminate.
Defined.

(** ** Erasing from the table *)

Lemma seg_erase_In (off : Z) (x : LogSegment.t) (m : segment_map) :
  In x (seg_erase off m) <-> In x m /\ LogSegment.offset x <> off.
Proof.
  unfold seg_erase. rewrite filter_In, negb_true_iff, Z.eqb_neq. tauto.
Qed.

Lemma seg_erase_increasing (off : Z) (m : segment_map) :
  increasing (seg_keys m) -> increasing (seg_keys (seg_erase off m)).
Proof.
  induction m as [|x m IH]; cbn; [trivial |].
  intros [H1 H2]. destruct (LogSegment.offset x =? off); cbn.
  - apply IH, H2.
  - split; [| apply IH, H2].
    intros y Hy. apply H1.
    apply in_map_iff in Hy. destruct Hy as (z & <- & Hz).
    apply seg_erase_In in Hz. apply in_map. apply Hz.
Qed.

Lemma seg_rbegin_erase (off : Z) (s : LogSegment.t) (m : segment_map) :
  seg_rbegin m = Some s -> LogSegment.offset s <> off ->
  seg_rbegin (seg_erase off m) = Some s.
Proof.
  induction m as [|x [|y m] IH]; intros H Hne.
  - discriminate.
  - injection H as ->. cbn.
    destruct (Z.eqb_spec (LogSegment.offset s) off); [contradiction |].
    reflexivity.
  - change (seg_rbegin (x :: y :: m)) with (seg_rbegin (y :: m)) in H.
    specialize (IH H Hne).
    change (seg_erase off (x :: y :: m))
      with (if negb (LogSegment.offset x =? off)
            then x :: seg_erase off (y :: m) else seg_erase off (y :: m)).
    destruct (negb (LogSegment.offset x =? off)); [| exact IH].
    destruct (seg_erase off (y :: m)) eqn:E; [discriminate | exact IH].
Qed.

Lemma seg_rbegin_In (s : LogSegment.t) (m : segment_map) :
  seg_rbegin m = Some s -> In s m.
Proof.
  induction m as [|x [|y m] IH]; intros H.
  - discriminate.
  - injection H as ->. left. reflexivity.
  - right. apply IH. exact H.
Qed.

Lemma seg_rbegin_some (x : LogSegment.t) (m : segment_map) :
  exists s, seg_rbegin (x :: m) = Some s.
Proof.
  revert x. induction m as [|y m IH]; intros x.
  - exists x. reflexivity.
  - destruct (IH y) as (s & H). exists s. exact H.
Qed.

(** ** [_trimmed] and [try_trim] *)

Lemma removed_fields (ls : LogSegment.t) (l : t) :
  segments (removed ls l) = seg_erase (LogSegment.offset ls) (segments l)
  /\ capped (removed ls l) = capped l
  /\ num_events (removed ls l) = num_events l - LogSegment.num_events ls
  /\ trimming_segments (removed ls l) = trimming_segments l
  /\ get_expire_pos (removed ls l)
     = (if is_oldest ls l then LogSegment.offset ls else get_expire_pos l).
Proof.
  unfold removed.
  change (is_oldest ls (set_num_events ?n l)) with (is_oldest ls l).
  destruct (is_oldest ls l); repeat split; reflexivity.
Qed.

Lemma _trimmed_cases (ls : LogSegment.t) (l : t) :
  In ls (segments l) ->
  (capped l = false /\ is_current ls l = true /\ _trimmed ls l = Ok l)
  \/ ((capped l = true \/ is_current ls l = false)
      /\ _trimmed ls l = Ok (removed ls l)).
Proof.
  intros Hin. unfold _trimmed.
  destruct (capped l) eqn:C; cbn [negb andb];
    [| destruct (is_current ls l) eqn:I; [left; auto |]];
    right; (split; [auto |]);
    cbn [segments set_num_events];
    (replace (seg_count (LogSegment.offset ls) (segments l)) with true
      by (symmetry; apply seg_count_In, in_map, Hin));
    reflexivity.
Qed.

(** ** An invariant of the trimming loop *)

Section TrimInvariant.
Variable env : Env.
Variable P : t -> Prop.

Hypothesis P_trimming :
  forall (s : list Z) (l : t), P l -> P (set_trimming_segments s l).
Hypothesis P_removed :
  forall (ls : LogSegment.t) (l : t),
    wf l -> In ls (segments l) ->
    capped l = true \/ is_current ls l = false ->
    P l -> P (removed ls l).

Lemma try_trim_invariant (ls : LogSegment.t) (l : t) :
  wf l -> In ls (segments l) -> P l ->
  exists l',
    try_trim env ls l = Ok l' /\ P l' /\ wf l'
    /\ (forall x, In x (segments l) ->
                  LogSegment.offset x <> LogSegment.offset ls ->
                  In x (segments l')).
Proof.
  intros Hwf Hin HP. unfold try_trim.
  destruct (try_to_expire env ls).
  - eexists. split; [reflexivity |].
    split; [apply P_trimming, HP |]. split; [exact Hwf |].
    intros x Hx _. exact Hx.
  - destruct (_trimmed_cases ls l Hin) as [(_ & _ & E) | (Hc & E)];
      rewrite E; eexists; (split; [reflexivity |]).
    + split; [exact HP |]. split; [exact Hwf |]. intros x Hx _. exact Hx.
    + destruct (removed_fields ls l) as (S & _).
      split; [apply P_removed; assumption |].
      split; [unfold wf; rewrite S; apply seg_erase_increasing, Hwf |].
      intros x Hx Hne. rewrite S. apply seg_erase_In. split; assumption.
Qed.

Lemma trim_loop_invariant (p : list LogSegment.t) :
  forall (stop : Z) (k : nat) (left : Z) (l : t),
    wf l -> increasing (seg_keys p) ->
    (forall x, In x p -> In x (segments l)) ->
    P l ->
    exists l', trim_loop env stop k p left l = Ok l' /\ P l' /\ wf l'.
Proof.
  induction p as [|ls p IH]; intros stop k left l Hwf Hp Hsub HP.
  - exists l. repeat split; assumption.
  - cbn [trim_loop].
    destruct (over_budget left l); [| exists l; repeat split; assumption].
    destruct (stop <? g_clock_now env k);
      [exists l; repeat split; assumption |].
    destruct (_ <=? _); [exists l; repeat split; assumption |].
    destruct Hp as [Hlt Hp].
    destruct (set_count (LogSegment.offset ls) (trimming_segments l)).
    + cbn [bind]. apply IH; try assumption.
      intros x Hx. apply Hsub. right. exact Hx.
    + destruct (try_trim_invariant ls l Hwf (Hsub ls (or_introl eq_refl)) HP)
        as (l1 & E & HP1 & Hwf1 & Hkeep).
      rewrite E. cbn [bind]. apply IH; try assumption.
      intros x Hx. apply Hkeep; [apply Hsub; right; exact Hx |].
      specialize (Hlt (LogSegment.offset x) (in_map _ _ _ Hx)). lia.
Qed.

Lemma trim_invariant (l : t) :
  wf l -> P l -> exists l', trim env l = Ok l' /\ P l' /\ wf l'.
Proof.
  intros Hwf HP. unfold trim.
  destruct (is_empty (segments l)); [exists l; repeat split; assumption |].
  apply trim_loop_invariant; try assumption.
  intros x Hx. exact Hx.
Qed.
End TrimInvariant.

(** ** The current segment survives trimming *)

Lemma removed_keeps_current (ls : LogSegment.t) (l : t) :
  In ls (segments l) ->
  capped l = false ->
  is_current ls l = false ->
  get_current_segment (removed ls l) = get_current_segment l.
Proof.
  intros Hin Hc Hcur.
  destruct (removed_fields ls l) as (S & _).
  unfold is_current, get_current_segment in *. rewrite S.
  destruct (segments l) as [|x m] eqn:E; [contradiction |].
  destruct (seg_rbegin_some x m) as (s & Hs). rewrite Hs in *.
  apply seg_rbegin_erase; [exact Hs |].
  apply Z.eqb_neq. exact Hcur.
Qed.

Lemma trim_single (env : Env) (s : LogSegment.t) (l : t) :
  capped l = false -> segments l = [s] ->
  exists l',
    trim env l = Ok l'
    /\ segments l' = [s]
    /\ num_events l' = num_events l
    /\ journaler l' = journaler l
    /\ capped l' = false.
Proof.
  intros Hc Hs.
  assert (Same : exists l',
             Ok l = Ok l' /\ segments l' = [s]
             /\ num_events l' = num_events l /\ journaler l' = journaler l
             /\ capped l' = false)
    by (exists l; repeat split; assumption).
  unfold trim. rewrite Hs. cbn [is_empty trim_loop].
  destruct (over_budget _ l); [| exact Same].
  destruct (_ <? _); [exact Same |].
  destruct (_ <=? _); [exact Same |].
  destruct (set_count _ _); cbn [bind]; [exact Same |].
  unfold try_trim. destruct (try_to_expire env s).
  - cbn [bind]. eexists. split; [reflexivity |].
    repeat split; assumption.
  - unfold _trimmed, is_current, get_current_segment.
    rewrite Hc, Hs. cbn [seg_rbegin negb andb]. rewrite Z.eqb_refl.
    cbn [bind]. exact Same.
Qed.

(** C5.  In a state where [capped] is false (the table being a map:
    keys strictly increasing), [trim] returns and the current, newest
    segment is still the last entry of the table, whatever [max_events],
    [max_segments], [mds_log_max_trimming], the barriers and the clock
    are; with a single segment the table is left exactly as it was. *)
Theorem trim_keeps_current_segment :
  forall (env : Env) (l : t),
    capped l = false ->
    increasing (seg_keys (segments l)) ->
    exists l',
      trim env l = Ok l'
      /\ capped l' = false
      /\ get_current_segment l' = get_current_segment l
      /\ (forall s, segments l = [s] -> segments l' = [s]).
Proof.
  intros env l Hc Hwf.
  destruct (trim_invariant env
              (fun l' => capped l' = false
                         /\ get_current_segment l' = get_current_segment l))
    with (l := l) as (l' & E & (C' & G') & _).
  - intros s l0 H. exact H.
  - intros ls l0 _ Hin [Hcap | Hcur] [C0 G0]; [congruence |].
    destruct (removed_fields ls l0) as (_ & C1 & _).
    split; [congruence |].
    rewrite <- G0. apply removed_keeps_current; assumption.
  - exact Hwf.
  - split; [exact Hc | reflexivity].
  - exists l'. repeat split; try assumption.
    intros s Hs. destruct (trim_single env s l Hc Hs) as (l2 & E2 & S2 & _).
    congruence.
Qed.

Lemma trim_keeps_current_segment_witness :
  exists l',
    trim env_no_barrier log_single_over_budget = Ok l'
    /\ capped l' = false
    /\ get_current_segment l' = Some (LogSegment.mk 0 50)
    /\ (forall s, segments log_single_over_budget = [s] -> segments l' = [s]).
Proof.
  apply (trim_keeps_current_segment env_no_barrier log_single_over_budget).
  - reflexivity.
  - simpl. split; [intros y [] | exact I].
Defined.

(** ** [expire_pos] under trimming *)

Lemma increasing_head (x : LogSegment.t) (m : segment_map) (y : LogSegment.t) :
  increasing (seg_keys (x :: m)) ->
  In y (x :: m) -> LogSegment.offset y <> LogSegment.offset x ->
  LogSegment.offset x < LogSegment.offset y.
Proof.
  intros [H _] [-> | Hy] Hne; [contradiction |].
  apply H, in_map, Hy.
Qed.

Lemma removed_expire_behind (ls : LogSegment.t) (l : t) :
  wf l ->
  (forall k, In k (seg_keys (segments l)) -> get_expire_pos l <= k) ->
  forall k, In k (seg_keys (segments (removed ls l))) ->
            get_expire_pos (removed ls l) <= k.
Proof.
  intros Hwf Hle k Hk.
  destruct (removed_fields ls l) as (S & _ & _ & _ & X).
  rewrite S in Hk. rewrite X.
  apply in_map_iff in Hk. destruct Hk as (y & <- & Hy).
  apply seg_erase_In in Hy. destruct Hy as [Hy Hne].
  unfold is_oldest, seg_begin.
  destruct (segments l) as [|x m] eqn:E; cbn [hd_error].
  - contradiction.
  - destruct (Z.eqb_spec (LogSegment.offset x) (LogSegment.offset ls)) as [Q|Q].
    + unfold wf in Hwf. try rewrite E in Hwf.
      pose proof (increasing_head x m y Hwf Hy). lia.
    + apply Hle. try rewrite E. apply in_map. exact Hy.
Qed.

(** C1 as the claim has it fails: in scenario (d) the two oldest segments
    go, the one at 4096 stays, and [expire_pos] is 2048, the offset of the
    segment removed last, not the minimum key 4096. *)
Lemma trim_oldest_counterexample :
  exists l',
    trim env_no_barrier log_three_segments = Ok l'
    /\ is_empty (segments l') = false
    /\ Journaler.active (journaler l') = true
    /\ seg_keys (segments l') = [4096]
    /\ get_expire_pos l' = 2048
    /\ get_expire_pos l' <> 4096.
Proof.
  eexists. split; [reflexivity |].
  repeat split; try reflexivity. discriminate.
Qed.

(** C1, amended.  Trimming keeps [expire_pos] at or below every key of
    the segment table: when the keys strictly increase and none is below
    [expire_pos], [trim] returns a state of which the same holds.  When
    [_trimmed] expires the oldest segment it sets [expire_pos] to that
    segment's own offset.  In scenario (d), segments at 0, 2048 and 4096
    with no barrier and [max_segments] 1, one call of [trim] removes the
    segments at 0 and 2048, leaves the one at 4096 with its count, takes
    their events off [num_events], and leaves [expire_pos] at 2048. *)
Theorem trim_expire_pos_behind_oldest :
  (forall (env : Env) (l : t),
      increasing (seg_keys (segments l)) ->
      (forall k, In k (seg_keys (segments l)) -> get_expire_pos l <= k) ->
      exists l',
        trim env l = Ok l'
        /\ increasing (seg_keys (segments l'))
        /\ (forall k, In k (seg_keys (segments l')) -> get_expire_pos l' <= k))
  /\ (forall (ls : LogSegment.t) (l : t),
         In ls (segments l) -> is_oldest ls l = true ->
         capped l = true \/ is_current ls l = false ->
         exists l',
           _trimmed ls l = Ok l'
           /\ get_expire_pos l' = LogSegment.offset ls
           /\ segments l' = seg_erase (LogSegment.offset ls) (segments l))
  /\ (exists l',
         trim env_no_barrier log_three_segments = Ok l'
         /\ segments l' = [LogSegment.mk 4096 5]
         /\ num_events l' = 5
         /\ get_expire_pos l' = 2048).
Proof.
  split; [| split].
  - intros env l Hwf Hle.
    destruct (trim_invariant env
                (fun l' => forall k, In k (seg_keys (segments l')) ->
                                     get_expire_pos l' <= k))
      with (l := l) as (l' & E & HP & Hwf').
    + intros s l0 H. exact H.
    + intros ls l0 Hwf0 _ _ H0. apply removed_expire_behind; assumption.
    + exact Hwf.
    + exact Hle.
    + exists l'. repeat split; assumption.
  - intros ls l Hin Hold Hc.
    destruct (_trimmed_cases ls l Hin) as [(C & I & _) | (_ & E)].
    + destruct Hc; congruence.
    + exists (removed ls l). split; [exact E |].
      destruct (removed_fields ls l) as (S & _ & _ & _ & X).
      rewrite X, Hold. split; [reflexivity | exact S].
  - eexists. split; [reflexivity |]. repeat split.
Qed.

Lemma trim_expire_pos_behind_oldest_witness :
  exists l',
    trim env_no_barrier log_three_segments = Ok l'
    /\ increasing (seg_keys (segments l'))
    /\ (forall k, In k (seg_keys (segments l')) -> get_expire_pos l' <= k).
Proof.
  apply (proj1 trim_expire_pos_behind_oldest env_no_barrier
           log_three_segments).
  - simpl. repeat split; intros y H; simpl in H;
      repeat (destruct H as [<- | H]; [reflexivity |]); destruct H.
  - simpl. intros k H.
    repeat (destruct H as [<- | H]; [discriminate |]). destruct H.
Defined.

(** ** One turn of the replay loop *)

Lemma _replay_loop_read (fuel : nat) (nep : Z) (l : t) (le : LogEvent) :
  Journaler.entry_at (get_read_pos l) (journaler l) = Some le ->
  _replay_loop (S fuel) nep l =
  let pos := get_read_pos l in
  let l1 := set_journaler
              (Journaler.set_read_pos (pos + encoded_length le) (journaler l))
              l in
  let l2 := if is_subtreemap (_type le)
            then set_segments
                   (seg_insert (LogSegment.new pos) (segments l1)) l1
            else l1 in
  if is_empty (segments l2) then _replay_loop fuel nep l2
  else _replay_loop fuel (if nep =? 0 then pos else nep)
         (set_num_events (num_events l2 + 1)
            (set_replayed (replayed l2 ++ [le]) l2)).
Proof.
  intros H. unfold get_read_pos in *. cbn [_replay_loop].
  unfold Journaler.is_readable, Journaler.try_read_entry. rewrite H.
  reflexivity.
Qed.

Lemma _replay_loop_end (fuel : nat) (nep : Z) (l : t) :
  Journaler.entry_at (get_read_pos l) (journaler l) = None ->
  get_read_pos l = get_write_pos l ->
  _replay_loop (S fuel) nep l = Ok (nep, l).
Proof.
  intros H E. unfold get_read_pos, get_write_pos in *. cbn [_replay_loop].
  unfold Journaler.is_readable. rewrite H, E.
  rewrite Z.ltb_irrefl, Z.eqb_refl. reflexivity.
Qed.

Lemma entry_at_body (p : Z) (j : Journaler.t) :
  Journaler.entry_at p j
  = match find (fun e => fst e =? p) (Journaler.body j) with
    | Some e => Some (snd e)
    | None => None
    end.
Proof. reflexivity. Qed.

Lemma stream4_entries (a b c d : LogEvent) (j : Journaler.t) :
  Journaler.body j = stream4 a b c d ->
  Journaler.entry_at 0 j = Some a
  /\ Journaler.entry_at (encoded_length a) j = Some b
  /\ Journaler.entry_at (encoded_length a + encoded_length b) j = Some c
  /\ Journaler.entry_at
       (encoded_length a + encoded_length b + encoded_length c) j
     = Some d
  /\ Journaler.entry_at
       (encoded_length a + encoded_length b + encoded_length c
        + encoded_length d) j = None.
Proof.
  intros H. rewrite !entry_at_body, H. unfold stream4. cbn [find fst snd].
  pose proof (encoded_length_pos a). pose proof (encoded_length_pos b).
  pose proof (encoded_length_pos c). pose proof (encoded_length_pos d).
  repeat split;
    repeat match goal with
           | |- context [?x =? ?y] =>
               destruct (Z.eqb_spec x y); try lia; try reflexivity
           end.
Qed.

Lemma replaying_read (fuel : nat) (nep : Z) (body : list (Z * LogEvent))
      (wp rp : Z) (segs : segment_map) (count : Z) (applied : list LogEvent)
      (max_ev max_seg : Z) (cb : Context) (le : LogEvent) :
  Journaler.entry_at rp (Journaler.mk true 0 rp wp body [] []) = Some le ->
  _replay_loop (S fuel) nep
    (replaying body wp rp segs count applied max_ev max_seg cb) =
  let segs' := if is_subtreemap (_type le)
               then seg_insert (LogSegment.new rp) segs else segs in
  if is_empty segs'
  then _replay_loop fuel nep
         (replaying body wp (rp + encoded_length le) segs' count applied
            max_ev max_seg cb)
  else _replay_loop fuel (if nep =? 0 then rp else nep)
         (replaying body wp (rp + encoded_length le) segs' (count + 1)
            (applied ++ [le]) max_ev max_seg cb).
Proof.
  intros H. rewrite (_replay_loop_read fuel nep _ le) by exact H.
  destruct (is_subtreemap (_type le)); reflexivity.
Qed.

Lemma replaying_end (fuel : nat) (nep : Z) (body : list (Z * LogEvent))
      (wp : Z) (segs : segment_map) (count : Z) (applied : list LogEvent)
      (max_ev max_seg : Z) (cb : Context) :
  Journaler.entry_at wp (Journaler.mk true 0 wp wp body [] []) = None ->
  _replay_loop (S fuel) nep
    (replaying body wp wp segs count applied max_ev max_seg cb)
  = Ok (nep, replaying body wp wp segs count applied max_ev max_seg cb).
Proof.
  intros H. apply _replay_loop_end; [exact H | reflexivity].
Qed.

(** C2 as the claim has it fails: after the replay of
    [A; B; SUBTREEMAP; D] the count is 2, the checkpoint and D, not 1. *)
Lemma replay_mid_checkpoint_counterexample :
  exists l,
    replay_to_end 5 (Some (C_Caller 0))
      (log_stream4 event_A event_B event_C event_D 0 (-1) (-1)) = Ok l
    /\ get_read_pos l = 8
    /\ get_expire_pos l = 8
    /\ replayed l = [event_C; event_D]
    /\ num_events l = 2
    /\ num_events l <> 1.
Proof.
  eexists. split; [vm_compute; reflexivity |].
  repeat split; try reflexivity. discriminate.
Qed.

(** C2, amended.  Replaying a stream [A; B; SUBTREEMAP at pos_C; D] from
    offset 0 (given fuel for its five turns, the worker returns) reads A
    and B without applying them, no segment existing yet; creates a
    segment at pos_C; applies the checkpoint itself and then D, counting
    both; and on completion leaves [read_pos == expire_pos == pos_C],
    [num_events == 2], the segment's own count at 0, and the caller's
    callback completed with 0. *)
Theorem replay_mid_checkpoint :
  forall (a b c d : LogEvent) (rp max_ev max_seg : Z) (cb : Context)
         (n : nat),
    is_subtreemap (_type a) = false ->
    is_subtreemap (_type b) = false ->
    is_subtreemap (_type c) = true ->
    is_subtreemap (_type d) = false ->
    let pos_C := encoded_length a + encoded_length b in
    exists l,
      replay_to_end (5 + n) (Some cb) (log_stream4 a b c d rp max_ev max_seg)
      = Ok l
      /\ replayed l = [c; d]
      /\ segments l = [LogSegment.mk pos_C 0]
      /\ get_read_pos l = pos_C
      /\ get_expire_pos l = pos_C
      /\ num_events l = 2
      /\ finished l = [(cb, 0)].
Proof.
  intros a b c d rp me ms cb n Ha Hb Hc Hd pos_C.
  pose proof (encoded_length_pos a) as La.
  pose proof (encoded_length_pos b) as Lb.
  pose proof (encoded_length_pos c) as Lc.
  pose proof (encoded_length_pos d) as Ld.
  set (wp := encoded_length a + encoded_length b + encoded_length c
             + encoded_length d).
  assert (E : forall p,
             Journaler.entry_at p
               (Journaler.mk true 0 p wp (stream4 a b c d) [] [])
             = Journaler.entry_at p
                 (Journaler.mk true 0 0 wp (stream4 a b c d) [] []))
    by reflexivity.
  destruct (stream4_entries a b c d
              (Journaler.mk true 0 0 wp (stream4 a b c d) [] []) eq_refl)
    as (Ea & Eb & Ec & Ed & Ee).
  exists (finish cb 0
            (mk (Journaler.mk true pos_C pos_C wp (stream4 a b c d) [] [])
                [LogSegment.mk pos_C 0] [] 2 0 false false me ms [] true
                [c; d] [])).
  split; [| destruct cb; repeat split; reflexivity].
  unfold replay_to_end.
  rewrite replay_nonempty;
    [| reflexivity
     | change (0 <> wp); unfold wp; lia].
  change (num_events (log_stream4 a b c d rp me ms)) with 0.
  cbn [Z.eqb assert bind].
  change (replay_thread_created (set_replay_thread_created true ?x))
    with true.
  cbv iota.
  change (set_replay_thread_created true _)
    with (replaying (stream4 a b c d) wp 0 [] 0 [] me ms cb).
  unfold _replay_thread.
  change (get_expire_pos (replaying _ _ _ _ _ _ _ _ _)) with 0.
  change (5 + n)%nat with (S (S (S (S (S n))))).
  rewrite (replaying_read _ _ _ _ _ _ _ _ _ _ _ a) by exact Ea.
  rewrite Ha. cbv zeta. cbn [is_empty]. rewrite Z.add_0_l.
  rewrite (replaying_read _ _ _ _ _ _ _ _ _ _ _ b) by (rewrite E; exact Eb).
  rewrite Hb. cbv zeta. cbn [is_empty].
  rewrite (replaying_read _ _ _ _ _ _ _ _ _ _ _ c) by (rewrite E; exact Ec).
  rewrite Hc. cbv zeta. cbn [seg_insert is_empty Z.eqb app Z.add].
  rewrite (replaying_read _ _ _ _ _ _ _ _ _ _ _ d) by (rewrite E; exact Ed).
  rewrite Hd. cbv zeta. cbn [is_empty app].
  fold pos_C.
  destruct (Z.eqb_spec pos_C 0) as [Q|_]; [subst pos_C; lia |].
  fold wp.
  rewrite replaying_end by (rewrite E; exact Ee).
  cbn [bind].
  change (get_read_pos (replaying _ wp wp _ _ _ _ _ _)) with wp.
  change (get_write_pos (replaying _ wp wp _ _ _ _ _ _)) with wp.
  rewrite Z.eqb_refl. cbn [assert bind].
  reflexivity.
Qed.

Lemma replay_mid_checkpoint_witness :
  exists l,
    replay_to_end (5 + 0) (Some (C_Caller 0))
      (log_stream4 event_A event_B event_C event_D 0 (-1) (-1)) = Ok l
    /\ replayed l = [event_C; event_D]
    /\ segments l = [LogSegment.mk 8 0]
    /\ get_read_pos l = 8
    /\ get_expire_pos l = 8
    /\ num_events l = 2
    /\ finished l = [(C_Caller 0, 0)].
Proof.
  apply (replay_mid_checkpoint event_A event_B event_C event_D 0 (-1) (-1)
           (C_Caller 0) 0%nat); reflexivity.
Defined.

(** ** The event count and the segments' counts *)

Lemma seg_sum_inc_last (m : segment_map) :
  is_empty m = false -> seg_sum (seg_inc_last m) = seg_sum m + 1.
Proof.
  induction m as [|x [|y m] IH]; intros H.
  - discriminate.
  - cbn. lia.
  - change (seg_inc_last (x :: y :: m)) with (x :: seg_inc_last (y :: m)).
    cbn [seg_sum] in *. rewrite IH by reflexivity. lia.
Qed.

Lemma seg_sum_insert_fresh (s : LogSegment.t) (m : segment_map) :
  seg_count (LogSegment.offset s) m = false ->
  seg_sum (seg_insert s m) = seg_sum m + LogSegment.num_events s.
Proof.
  unfold seg_count. induction m as [|x m IH]; cbn [seg_insert existsb seg_sum].
  - intros _. lia.
  - intros H. apply orb_false_iff in H. destruct H as [H1 H2].
    rewrite Z.eqb_sym in H1.
    destruct (_ <? _); cbn [seg_sum]; [lia |].
    rewrite H1. cbn [seg_sum]. rewrite IH by exact H2. lia.
Qed.

Lemma seg_erase_cons (off : Z) (x : LogSegment.t) (m : segment_map) :
  seg_erase off (x :: m)
  = if LogSegment.offset x =? off then seg_erase off m
    else x :: seg_erase off m.
Proof.
  unfold seg_erase. cbn [filter].
  destruct (LogSegment.offset x =? off); reflexivity.
Qed.

Lemma seg_erase_above (off : Z) (m : segment_map) :
  (forall y, In y (seg_keys m) -> off < y) -> seg_erase off m = m.
Proof.
  induction m as [|x m IH]; intros H; [reflexivity |].
  rewrite seg_erase_cons.
  destruct (Z.eqb_spec (LogSegment.offset x) off) as [E|E].
  - specialize (H (LogSegment.offset x) (or_introl eq_refl)). lia.
  - f_equal. apply IH. intros y Hy. apply H. right. exact Hy.
Qed.

Lemma seg_sum_erase (ls : LogSegment.t) (m : segment_map) :
  increasing (seg_keys m) -> In ls m ->
  seg_sum (seg_erase (LogSegment.offset ls) m)
  = seg_sum m - LogSegment.num_events ls.
Proof.
  induction m as [|x m IH]; intros Hinc Hin; [contradiction |].
  destruct Hinc as [Hlt Hinc]. destruct Hin as [-> | Hin].
  - rewrite seg_erase_cons, Z.eqb_refl.
    rewrite seg_erase_above by exact Hlt. cbn [seg_sum]. lia.
  - rewrite seg_erase_cons.
    specialize (Hlt _ (in_map LogSegment.offset _ _ Hin)).
    destruct (Z.eqb_spec (LogSegment.offset x) (LogSegment.offset ls));
      [lia |].
    cbn [seg_sum]. rewrite IH by assumption. lia.
Qed.

(** X1.  [submit_entry] keeps the count equal to the sum: it increments both,
    and a segment it starts comes in with no events. *)
Lemma submit_entry_keeps_sum (env : Env) (le : LogEvent) (c : option Context)
      (l l' : t) :
  (forall k, In k (seg_keys (segments l)) -> k <= get_write_pos l) ->
  num_events l = seg_sum (segments l) ->
  submit_entry env le c l = Ok l' ->
  num_events l' = seg_sum (segments l').
Proof.
  intros Hk Hsum H.
  destruct (mds_log (g_conf env)) eqn:E.
  - destruct (submit_entry_cases _ _ _ _ _ E H)
      as (Hne & _ & [[_ ->] | [_ ->]]);
      destruct (submitted_fields le c l) as (S & N & W & _).
    + rewrite S, N, seg_sum_inc_last by exact Hne. lia.
    + match goal with
      | |- context [submitted ?e ?k (segment_opened ?s)] =>
          destruct (submitted_fields e k (segment_opened s)) as (S2 & N2 & _);
          destruct (segment_opened_fields s) as (S1 & N1 & _)
      end.
      rewrite S2, N2, N1, N, S1, W.
      rewrite seg_sum_inc_last by apply seg_insert_nonempty.
      rewrite seg_sum_insert_fresh.
      * rewrite S, seg_sum_inc_last by exact Hne.
        cbn [LogSegment.new LogSegment.num_events]. lia.
      * cbn [LogSegment.new LogSegment.offset].
        rewrite S, seg_count_inc_last.
        destruct (seg_count _ (segments l)) eqn:Q; [| reflexivity].
        apply seg_count_In, Hk in Q. pose proof (encoded_length_pos le). lia.
  - unfold submit_entry in H. cbn [submit_entry_fuel] in H. rewrite E in H.
    cbn [negb] in H. destruct c as [c|]; injection H as <-; [| exact Hsum].
    destruct (finish_fields c 0 l) as (_ & N & S & _). congruence.
Qed.

(** X2.  [trim] keeps it too: [_trimmed] takes the segment's count off the
    total as it erases the segment. *)
Lemma trim_keeps_sum (env : Env) (l : t) :
  wf l ->
  num_events l = seg_sum (segments l) ->
  exists l', trim env l = Ok l' /\ num_events l' = seg_sum (segments l').
Proof.
  intros Hwf Hsum.
  destruct (trim_invariant env (fun l0 => num_events l0 = seg_sum (segments l0)))
    with (l := l) as (l' & E & HP & _).
  - intros s l0 H. exact H.
  - intros ls l0 Hwf0 Hin _ H0.
    destruct (removed_fields ls l0) as (S & _ & N & _).
    rewrite S, N, seg_sum_erase by assumption. lia.
  - exact Hwf.
  - exact Hsum.
  - exists l'. split; assumption.
Qed.

(** C3.  The replay worker counts every applied event in [num_events] and
    in no segment: replaying a log that holds a checkpoint and one event
    ends with [num_events] 2 over a table whose counts sum to 0. *)
Theorem replay_count_not_in_segments :
  exists l,
    replay_to_end 3 (Some (C_Caller 0)) log_checkpoint_first = Ok l
    /\ replayed l = [event_C; event_D]
    /\ segments l = [LogSegment.mk 100 0]
    /\ num_events l = 2
    /\ seg_sum (segments l) = 0
    /\ num_events l <> seg_sum (segments l).
Proof.
  eexists. split; [vm_compute; reflexivity |].
  repeat split; try reflexivity. discriminate.
Qed.

(** ** One segment, no trim *)

Lemma finish_contexts_fields (ls : list Context) (r : Z) (l : t) :
  num_events (finish_contexts ls r l) = num_events l
  /\ segments (finish_contexts ls r l) = segments l
  /\ journaler (finish_contexts ls r l) = journaler l
  /\ capped (finish_contexts ls r l) = capped l.
Proof.
  revert l. induction ls as [|c ls IH]; intros l; cbn [finish_contexts].
  - repeat split.
  - destruct (IH (finish c r l)) as (N & S & J & C).
    destruct (finish_fields c r l) as (_ & N' & S' & J' & _ & C' & _).
    repeat split; congruence.
Qed.

Lemma journaler_flushed_first (n w : Z) (l : t) :
  in_first_segment n w l -> in_first_segment n w (journaler_flushed l).
Proof.
  intros (S & N & C & W & X). unfold journaler_flushed, in_first_segment.
  match goal with
  | |- context [finish_contexts ?ls 0 ?s] =>
      destruct (finish_contexts_fields ls 0 s) as (N' & S' & J' & C')
  end.
  unfold get_write_pos, get_expire_pos in *.
  rewrite S', N', J', C'. repeat split; assumption.
Qed.

Lemma submit_first (env : Env) (le : LogEvent) (n w : Z) (l : t) :
  mds_log (g_conf env) = true ->
  0 < period env ->
  0 <= w -> w + encoded_length le < period env ->
  in_first_segment n w l ->
  exists l',
    submit_entry env le None l = Ok l'
    /\ in_first_segment (n + 1) (w + encoded_length le) l'.
Proof.
  intros He Hp Hw Hlt (S & N & C & W & X).
  pose proof (encoded_length_pos le) as Hle.
  destruct (submitted_fields le None l) as (S1 & N1 & W1 & X1 & _ & Wsm & C1 & _).
  assert (Due : new_segment_due env (submitted le None l) = Ok false).
  { destruct (writing_subtree_map l) eqn:Ew.
    - apply new_segment_due_writing. congruence.
    - rewrite new_segment_due_eq;
        [| rewrite S1, seg_inc_last_nonempty, S; reflexivity | congruence | lia].
      rewrite last_offset_submitted, W1, W.
      unfold get_last_segment_offset. rewrite S.
      cbn [seg_rbegin LogSegment.offset].
      rewrite Z.quot_small by lia. rewrite Z.quot_0_l by lia.
      reflexivity. }
  rewrite submit_entry_enabled by assumption.
  rewrite S, C. cbn [is_empty negb assert bind]. rewrite Due. cbn [bind].
  eexists. split; [reflexivity |].
  unfold in_first_segment. rewrite S1, N1, C1, W1, X1, S.
  repeat split; congruence.
Qed.

Lemma total_length_nonneg (es : list LogEvent) : 0 <= total_length es.
Proof.
  induction es as [|e es IH]; cbn [total_length]; [lia |].
  pose proof (encoded_length_pos e). lia.
Qed.

Lemma submit_all_first (env : Env) (es : list LogEvent) :
  mds_log (g_conf env) = true ->
  0 < period env ->
  forall (n w : Z) (l : t),
    0 <= w -> w + total_length es < period env ->
    in_first_segment n w l ->
    exists l',
      submit_all env es l = Ok l'
      /\ in_first_segment (n + Z.of_nat (List.length es))
           (w + total_length es) l'.
Proof.
  intros He Hp. induction es as [|e es IH]; intros n w l Hw Hlt Hin.
  - exists l. split; [reflexivity |].
    cbn [List.length total_length Z.of_nat]. rewrite !Z.add_0_r. exact Hin.
  - cbn [total_length] in Hlt. cbn [submit_all].
    pose proof (total_length_nonneg es) as Hes.
    pose proof (encoded_length_pos e) as Hle.
    destruct (submit_first env e n w l He Hp Hw ltac:(lia) Hin)
      as (l1 & E1 & H1).
    rewrite E1. cbn [bind].
    destruct (IH (n + 1) (w + encoded_length e) l1 ltac:(lia) ltac:(lia) H1)
      as (l2 & E2 & H2).
    exists l2. split; [exact E2 |].
    cbn [total_length].
    replace (n + Z.of_nat (List.length (e :: es)))
      with (n + 1 + Z.of_nat (List.length es))
      by (cbn [List.length]; lia).
    replace (w + (encoded_length e + total_length es))
      with (w + encoded_length e + total_length es) by lia.
    exact H2.
Qed.

Lemma flush_first (env : Env) (n w : Z) (l : t) :
  in_first_segment n w l ->
  exists l', flush env l = Ok l' /\ in_first_segment n w l'.
Proof.
  intros (S & N & C & W & X). unfold flush.
  destruct (unflushed l =? 0);
    match goal with
    | |- exists l', trim env ?s = _ /\ _ =>
        destruct (trim_single env (LogSegment.mk 0 n) s)
          as (l' & E & S' & N' & J' & C');
        [exact C | exact S |]
    end;
    (exists l'; split; [exact E |]);
    unfold in_first_segment, get_write_pos, get_expire_pos in *;
    rewrite S', N', J', C'; repeat split; assumption.
Qed.

Lemma start_first (env : Env) (c : option Context) (j : Journaler.t)
      (max_ev max_seg : Z) :
  mds_log (g_conf env) = true ->
  exists l1 l2,
    create c (init j max_ev max_seg) = Ok l1
    /\ start_new_segment env None l1 = Ok l2
    /\ in_first_segment 1 (encoded_length (create_subtree_map env)) l2.
Proof.
  intros He. eexists. eexists. split; [reflexivity |].
  split.
  - apply start_new_segment_enabled; [exact He | | ]; destruct c; reflexivity.
  - destruct c; repeat split.
Qed.

(** C7 as the claim has it fails: the checkpoint that opens the segment
    is submitted like any event and counted, so five events leave the
    count, in the log and in the segment, at 6. *)
Lemma single_segment_counterexample :
  exists l,
    single_segment_run env_enabled false
      [event_A; event_B; event_D; event_A; event_B] log_new = Ok l
    /\ segments l = [LogSegment.mk 0 6]
    /\ num_events l = 6
    /\ get_expire_pos l = 0
    /\ num_events l <> 5.
Proof.
  eexists. split; [vm_compute; reflexivity |].
  repeat split; try reflexivity. discriminate.
Qed.

(** C7, amended.  On a new log with logging enabled, [create], then
    [start_new_segment] at offset 0, then five events submitted and a
    [flush], all of it within the first period, leave [num_events == 6]
    and a single segment whose [num_events == 6], the five events and the
    checkpoint that opened the segment, with [expire_pos == 0] and
    [write_pos] at the sum of the encoded sizes, whether or not the
    checkpoint's flush completed before the events came. *)
Theorem single_segment_counts_checkpoint :
  forall (env : Env) (durable : bool) (e1 e2 e3 e4 e5 : LogEvent)
         (j : Journaler.t) (max_ev max_seg : Z),
    mds_log (g_conf env) = true ->
    0 < period env ->
    encoded_length (create_subtree_map env)
    + total_length [e1; e2; e3; e4; e5] < period env ->
    exists l,
      single_segment_run env durable [e1; e2; e3; e4; e5]
        (init j max_ev max_seg) = Ok l
      /\ num_events l = 6
      /\ segments l = [LogSegment.mk 0 6]
      /\ get_expire_pos l = 0
      /\ get_write_pos l
         = encoded_length (create_subtree_map env)
           + total_length [e1; e2; e3; e4; e5].
Proof.
  intros env durable e1 e2 e3 e4 e5 j me ms He Hp Hlt.
  unfold single_segment_run.
  destruct (start_first env None j me ms He) as (l1 & l2 & E1 & E2 & H2).
  rewrite E1. cbn [bind]. rewrite E2. cbn [bind].
  assert (H3 : in_first_segment 1 (encoded_length (create_subtree_map env))
                 (if durable then journaler_flushed l2 else l2))
    by (destruct durable; [apply journaler_flushed_first |]; exact H2).
  pose proof (encoded_length_pos (create_subtree_map env)) as Hsm.
  destruct (submit_all_first env [e1; e2; e3; e4; e5] He Hp 1
              (encoded_length (create_subtree_map env)) _
              ltac:(lia) Hlt H3) as (l4 & E4 & H4).
  rewrite E4. cbn [bind].
  destruct (flush_first env _ _ l4 H4) as (l5 & E5 & (S & N & C & W & X)).
  exists l5. split; [exact E5 |].
  repeat split; assumption.
Qed.

Lemma single_segment_counts_checkpoint_witness :
  exists l,
    single_segment_run env_enabled true
      [event_A; event_B; event_D; event_A; event_B] log_new = Ok l
    /\ num_events l = 6
    /\ segments l = [LogSegment.mk 0 6]
    /\ get_expire_pos l = 0
    /\ get_write_pos l = 24.
Proof.
  apply (single_segment_counts_checkpoint env_enabled true
           event_A event_B event_D event_A event_B journaler_blank (-1) (-1));
    reflexivity.
Defined.

(** ** The table's keys under [submit_entry] *)

Lemma seg_keys_inc_last (m : segment_map) :
  seg_keys (seg_inc_last m) = seg_keys m.
Proof.
  induction m as [|x [|y m] IH]; [reflexivity | reflexivity |].
  change (seg_inc_last (x :: y :: m)) with (x :: seg_inc_last (y :: m)).
  unfold seg_keys in *. cbn [map]. cbn [map] in IH. rewrite IH. reflexivity.
Qed.

Lemma seg_insert_above (s : LogSegment.t) (m : segment_map) :
  (forall k, In k (seg_keys m) -> k < LogSegment.offset s) ->
  seg_insert s m = m ++ [s].
Proof.
  induction m as [|x m IH]; intros H; [reflexivity |].
  cbn [seg_insert app].
  pose proof (H (LogSegment.offset x) (or_introl eq_refl)) as Hx.
  destruct (Z.ltb_spec (LogSegment.offset s) (LogSegment.offset x)); [lia |].
  destruct (Z.eqb_spec (LogSegment.offset s) (LogSegment.offset x)); [lia |].
  f_equal. apply IH. intros k Hk. apply H. right. exact Hk.
Qed.

Lemma seg_inc_last_app (m : segment_map) (s : LogSegment.t) :
  seg_inc_last (m ++ [s]) = m ++ [LogSegment.inc_num_events s].
Proof.
  induction m as [|x m IH]; [reflexivity |].
  cbn [app]. destruct (m ++ [s]) eqn:E.
  - destruct m; discriminate.
  - rewrite <- E.
    change (seg_inc_last (x :: ?r)) with (seg_inc_last (x :: r)).
    rewrite <- IH. rewrite E. reflexivity.
Qed.

Lemma increasing_app_last (l : list Z) (x : Z) :
  increasing l -> (forall k, In k l -> k < x) -> increasing (l ++ [x]).
Proof.
  induction l as [|y l IH]; intros Hi Hx; cbn [app increasing].
  - split; [intros z [] | exact I].
  - destruct Hi as [Hy Hi]. split.
    + intros z Hz. apply in_app_or in Hz. destruct Hz as [Hz | [<- | []]].
      * apply Hy, Hz.
      * apply Hx. left. reflexivity.
    + apply IH; [exact Hi |]. intros k Hk. apply Hx. right. exact Hk.
Qed.

Lemma seg_keys_app (m : segment_map) (s : LogSegment.t) :
  seg_keys (m ++ [s]) = seg_keys m ++ [LogSegment.offset s].
Proof. unfold seg_keys. rewrite map_app. reflexivity. Qed.

(** The table [start_new_segment] leaves when every key is at or below
    the position reached before the append of [e]. *)
Lemma opened_table (le : LogEvent) (c : option Context) (l : t) :
  (forall k, In k (seg_keys (segments l)) -> k <= get_write_pos l) ->
  seg_inc_last
    (seg_insert (LogSegment.new (get_write_pos l + encoded_length le))
       (seg_inc_last (segments l)))
  = seg_inc_last (segments l)
    ++ [LogSegment.mk (get_write_pos l + encoded_length le) 1].
Proof.
  intros Hk. pose proof (encoded_length_pos le).
  rewrite seg_insert_above.
  - rewrite seg_inc_last_app. reflexivity.
  - intros k Hk'. rewrite seg_keys_inc_last in Hk'. apply Hk in Hk'.
    cbn [LogSegment.new LogSegment.offset]. lia.
Qed.

(** X3.  [submit_entry] keeps the table a map whose keys are stream
    positions already written: strictly increasing keys, none beyond
    [write_pos], before the call give the same after it, whether or not a
    segment is started and whether or not the log is enabled. *)
Theorem submit_entry_keeps_keys :
  forall (env : Env) (le : LogEvent) (c : option Context) (l l' : t),
    increasing (seg_keys (segments l)) ->
    (forall k, In k (seg_keys (segments l)) -> k <= get_write_pos l) ->
    submit_entry env le c l = Ok l' ->
    increasing (seg_keys (segments l'))
    /\ (forall k, In k (seg_keys (segments l')) -> k <= get_write_pos l').
Proof.
  intros env le c l l' Hwf Hk H.
  pose proof (encoded_length_pos le) as Hle.
  destruct (mds_log (g_conf env)) eqn:E.
  - destruct (submit_entry_cases _ _ _ _ _ E H)
      as (_ & _ & [[_ ->] | [_ ->]]);
      destruct (submitted_fields le c l) as (S & _ & W & _).
    + rewrite S, W, seg_keys_inc_last. split; [exact Hwf |].
      intros k Hk'. apply Hk in Hk'. lia.
    + match goal with
      | |- context [submitted ?e ?k (segment_opened ?s)] =>
          destruct (submitted_fields e k (segment_opened s)) as (S2 & _ & W2 & _);
          destruct (segment_opened_fields s) as (S1 & _ & W1 & _);
          pose proof (encoded_length_pos e) as Hsm
      end.
      rewrite S2, W2, W1, S1, W, S, (opened_table le c l Hk).
      rewrite seg_keys_app, seg_keys_inc_last.
      cbn [LogSegment.offset]. split.
      * apply increasing_app_last; [exact Hwf |].
        intros k Hk'. apply Hk in Hk'. lia.
      * intros k Hk'. apply in_app_or in Hk'.
        destruct Hk' as [Hk' | [<- | []]]; [apply Hk in Hk' |]; lia.
  - unfold submit_entry in H. cbn [submit_entry_fuel] in H. rewrite E in H.
    cbn [negb] in H.
    destruct c as [c|]; injection H as <-; [| split; assumption].
    destruct (finish_fields c 0 l) as (_ & _ & S & J & _).
    unfold get_write_pos. rewrite S, J. split; assumption.
Qed.

Lemma submit_entry_keeps_keys_witness :
  exists l',
    submit_entry env_enabled event_100 None log_near_boundary = Ok l'
    /\ increasing (seg_keys (segments l'))
    /\ (forall k, In k (seg_keys (segments l')) -> k <= get_write_pos l').
Proof.
  eexists. split; [vm_compute; reflexivity |].
  apply (submit_entry_keeps_keys env_enabled event_100 None log_near_boundary).
  - simpl. split; [intros y [] | exact I].
  - intros k [<- | []]. vm_compute. discriminate.
  - vm_compute. reflexivity.
Defined.

(** X4.  When the policy fires, the submitted event is counted in the
    segment that was current, and behind it the table gets a new segment
    at the position the append reached, holding exactly the checkpoint;
    the log counts two events more, has nothing unflushed, is writing a
    subtree map, and the checkpoint's completion waits for the flush. *)
Theorem submit_entry_starts_segment :
  forall (env : Env) (le : LogEvent) (c : option Context) (l : t),
    mds_log (g_conf env) = true ->
    period env <> 0 ->
    is_empty (segments l) = false ->
    capped l = false ->
    (forall k, In k (seg_keys (segments l)) -> k <= get_write_pos l) ->
    writing_subtree_map l = false ->
    Z.quot (get_write_pos l + encoded_length le) (period env)
    <> Z.quot (get_last_segment_offset l) (period env) ->
    Z.quot (period env) 2
    < get_write_pos l + encoded_length le - get_last_segment_offset l ->
    exists l',
      submit_entry env le c l = Ok l'
      /\ segments l'
         = seg_inc_last (segments l)
           ++ [LogSegment.mk (get_write_pos l + encoded_length le) 1]
      /\ num_events l' = num_events l + 2
      /\ get_write_pos l'
         = get_write_pos l + encoded_length le
           + encoded_length (create_subtree_map env)
      /\ unflushed l' = 0
      /\ writing_subtree_map l' = true
      /\ In (C_MDL_WroteSubtreeMap (get_write_pos l + encoded_length le))
            (Journaler.waitfor_flush (journaler l')).
Proof.
  intros env le c l He Hp Hs Hc Hk Hw Hq Hlt.
  destruct (submitted_fields le c l) as (S & N & W & _ & _ & Wsm & C & _).
  rewrite submit_entry_enabled by assumption.
  rewrite Hs, Hc. cbn [negb assert bind].
  rewrite new_segment_due_eq;
    [| rewrite S, seg_inc_last_nonempty; assumption | congruence | assumption].
  rewrite W, last_offset_submitted.
  destruct (Z.eqb_spec
              (Z.quot (get_write_pos l + encoded_length le) (period env))
              (Z.quot (get_last_segment_offset l) (period env)));
    [contradiction |].
  destruct (Z.ltb_spec (Z.quot (period env) 2)
              (get_write_pos l + encoded_length le
               - get_last_segment_offset l)); [| lia].
  cbn [negb andb bind].
  rewrite start_new_segment_enabled by congruence.
  eexists. split; [reflexivity |].
  match goal with
  | |- context [submitted ?e ?k (segment_opened ?s)] =>
      destruct (submitted_fields e k (segment_opened s))
        as (S2 & N2 & W2 & _ & _ & Wsm2 & _);
      destruct (segment_opened_fields s) as (S1 & N1 & W1 & _ & _ & Wsm1 & _)
  end.
  rewrite S2, N2, W2, Wsm2, S1, N1, W1, Wsm1, W, S, N.
  rewrite (opened_table le c l Hk).
  repeat split; try reflexivity; try lia.
  cbn. apply in_or_app. right. left. reflexivity.
Qed.

Lemma submit_entry_starts_segment_witness :
  exists l',
    submit_entry env_enabled event_100 None log_near_boundary = Ok l'
    /\ segments l' = [LogSegment.mk 0 10; LogSegment.mk 1104 1]
    /\ num_events l' = 11
    /\ get_write_pos l' = 1108
    /\ unflushed l' = 0
    /\ writing_subtree_map l' = true
    /\ In (C_MDL_WroteSubtreeMap 1104) (Journaler.waitfor_flush (journaler l')).
Proof.
  apply (submit_entry_starts_segment env_enabled event_100 None
           log_near_boundary).
  - reflexivity.
  - discriminate.
  - reflexivity.
  - reflexivity.
  - intros k [<- | []]. vm_compute. discriminate.
  - reflexivity.
  - vm_compute. discriminate.
  - vm_compute. reflexivity.
Defined.

Lemma submit_entry_keeps_sum_witness :
  exists l',
    submit_entry env_enabled event_100 None log_near_boundary = Ok l'
    /\ num_events l' = seg_sum (segments l').
Proof.
  eexists. split; [vm_compute; reflexivity |].
  apply (submit_entry_keeps_sum env_enabled event_100 None log_near_boundary).
  - intros k [<- | []]. vm_compute. discriminate.
  - reflexivity.
  - vm_compute. reflexivity.
Defined.

Lemma trim_keeps_sum_witness :
  exists l',
    trim env_no_barrier log_three_segments = Ok l'
    /\ num_events l' = seg_sum (segments l').
Proof.
  apply (trim_keeps_sum env_no_barrier log_three_segments).
  - unfold wf. simpl. repeat split; intros y H; simpl in H;
      repeat (destruct H as [<- | H]; [reflexivity |]); destruct H.
  - reflexivity.
Defined.

Lemma seg_keys_app_list (a b : segment_map) :
  seg_keys (a ++ b) = seg_keys a ++ seg_keys b.
Proof. unfold seg_keys. apply map_app. Qed.

(** ** What [trim] leaves alone *)

Lemma removed_untouched (ls : LogSegment.t) (l : t) :
  get_write_pos (removed ls l) = get_write_pos l
  /\ get_read_pos (removed ls l) = get_read_pos l
  /\ Journaler.body (journaler (removed ls l)) = Journaler.body (journaler l)
  /\ unflushed (removed ls l) = unflushed l
  /\ writing_subtree_map (removed ls l) = writing_subtree_map l
  /\ max_events (removed ls l) = max_events l
  /\ max_segments (removed ls l) = max_segments l.
Proof.
  unfold removed.
  change (is_oldest ls (set_num_events ?n l)) with (is_oldest ls l).
  destruct (is_oldest ls l); repeat split; reflexivity.
Qed.



(** X6.  [trim] never moves [expire_pos] backwards, never past a key that
    is left, and never past [write_pos]: with strictly increasing keys
    that lie between [expire_pos] and [write_pos] before the call, the
    same holds after it and the new [expire_pos] is at least the old. *)
Theorem trim_expire_pos_monotone :
  forall (env : Env) (l : t),
    increasing (seg_keys (segments l)) ->
    (forall k, In k (seg_keys (segments l)) ->
               get_expire_pos l <= k <= get_write_pos l) ->
    get_expire_pos l <= get_write_pos l ->
    exists l',
      trim env l = Ok l'
      /\ get_expire_pos l <= get_expire_pos l'
      /\ get_expire_pos l' <= get_write_pos l'
      /\ (forall k, In k (seg_keys (segments l')) ->
                    get_expire_pos l' <= k <= get_write_pos l').
Proof.
  intros env l Hwf Hk Hx.
  destruct (trim_invariant env
              (fun l' =>
                 get_expire_pos l <= get_expire_pos l'
                 /\ get_expire_pos l' <= get_write_pos l'
                 /\ get_write_pos l' = get_write_pos l
                 /\ (forall k, In k (seg_keys (segments l')) ->
                               get_expire_pos l' <= k <= get_write_pos l')))
    with (l := l) as (l' & E & (H1 & H2 & _ & H4) & _).
  - intros s l0 H. exact H.
  - intros ls l0 Hwf0 Hin _ (H1 & H2 & H3 & H4).
    destruct (removed_fields ls l0) as (S & _ & _ & _ & X).
    destruct (removed_untouched ls l0) as (U1 & _).
    pose proof (H4 _ (in_map LogSegment.offset _ _ Hin)) as Hls.
    assert (Hx' : get_expire_pos l0 <= get_expire_pos (removed ls l0)
                  /\ get_expire_pos (removed ls l0) <= get_write_pos l0)
      by (rewrite X; destruct (is_oldest ls l0); lia).
    rewrite U1. repeat split; try lia.
    + apply removed_expire_behind; [exact Hwf0 | | exact H].
      intros k0 Hk0. apply H4, Hk0.
    + rewrite S in H. apply in_map_iff in H. destruct H as (y & <- & Hy).
      apply seg_erase_In in Hy.
      apply (H4 _ (in_map LogSegment.offset _ _ (proj1 Hy))).
  - exact Hwf.
  - repeat split; try lia; apply Hk; assumption.
  - exists l'. repeat split; try assumption; apply H4; assumption.
Qed.

Lemma trim_expire_pos_monotone_witness :
  exists l',
    trim env_no_barrier log_three_segments = Ok l'
    /\ get_expire_pos log_three_segments <= get_expire_pos l'
    /\ get_expire_pos l' <= get_write_pos l'
    /\ (forall k, In k (seg_keys (segments l')) ->
                  get_expire_pos l' <= k <= get_write_pos l').
Proof.
  apply (trim_expire_pos_monotone env_no_barrier log_three_segments).
  - simpl. repeat split; intros y H; simpl in H;
      repeat (destruct H as [<- | H]; [reflexivity |]); destruct H.
  - simpl. intros k H.
    repeat (destruct H as [<- | H]; [split; discriminate |]). destruct H.
  - discriminate.
Defined.

(** ** The trimming set *)

Lemma int_cast_small (z : Z) : 0 <= z < 2 ^ 31 -> int_cast z = z.
Proof.
  intros H. unfold int_cast.
  assert (P31 : 2 ^ 31 = 2147483648) by reflexivity.
  assert (P32 : 2 ^ 32 = 4294967296) by reflexivity.
  rewrite Z.mod_small by lia.
  destruct (Z.ltb_spec z (2 ^ 31)); [reflexivity | lia].
Qed.

Lemma set_count_In (x : Z) (s : list Z) :
  set_count x s = true <-> In x s.
Proof.
  unfold set_count. rewrite existsb_exists. split.
  - intros (y & Hy & E). apply Z.eqb_eq in E. subst y. exact Hy.
  - intros H. exists x. split; [exact H | apply Z.eqb_refl].
Qed.

Lemma set_insert_new (x : Z) (s : list Z) :
  set_count x s = false -> set_insert x s = s ++ [x].
Proof. intros H. unfold set_insert. rewrite H. reflexivity. Qed.

Lemma set_erase_absent (x : Z) (s : list Z) :
  set_count x s = false -> set_erase x s = s.
Proof.
  unfold set_count, set_erase. induction s as [|y s IH]; intros H.
  - reflexivity.
  - cbn [existsb] in H. apply orb_false_iff in H. destruct H as [H1 H2].
    cbn [filter]. rewrite H1. cbn [negb]. f_equal. apply IH, H2.
Qed.

Lemma set_erase_insert (x : Z) (s : list Z) :
  set_count x s = false -> set_erase x (set_insert x s) = s.
Proof.
  intros H. rewrite set_insert_new by exact H.
  unfold set_erase. rewrite filter_app. cbn [filter].
  rewrite Z.eqb_refl. cbn [negb]. rewrite app_nil_r.
  apply set_erase_absent, H.
Qed.

Lemma size_app_one {A : Type} (s : list A) (x : A) :
  size (s ++ [x]) = size s + 1.
Proof. unfold size. rewrite length_app. cbn [List.length]. lia. Qed.

(** The loop of [trim] once more, with what each turn knows when it
    acts: the segment is not being trimmed yet and the trimming set is
    below [mds_log_max_trimming]. *)
Section TrimTurns.
Variable env : Env.
Variable P : t -> Prop.

Hypothesis P_barrier :
  forall (ls : LogSegment.t) (l : t),
    In ls (segments l) ->
    set_count (LogSegment.offset ls) (trimming_segments l) = false ->
    (mds_log_max_trimming (g_conf env)
     <=? int_cast (size (trimming_segments l))) = false ->
    P l ->
    P (set_trimming_segments
         (set_insert (LogSegment.offset ls) (trimming_segments l)) l).
Hypothesis P_expired :
  forall (ls : LogSegment.t) (l : t),
    wf l -> In ls (segments l) ->
    set_count (LogSegment.offset ls) (trimming_segments l) = false ->
    P l -> P (removed ls l).

Lemma trim_loop_turns (p : list LogSegment.t) :
  forall (stop : Z) (k : nat) (left : Z) (l : t),
    wf l -> increasing (seg_keys p) ->
    (forall x, In x p -> In x (segments l)) ->
    P l ->
    exists l', trim_loop env stop k p left l = Ok l' /\ P l'.
Proof.
  induction p as [|ls p IH]; intros stop k left l Hwf Hp Hsub HP.
  - exists l. split; [reflexivity | exact HP].
  - cbn [trim_loop].
    destruct (over_budget left l); [| exists l; split; [reflexivity | exact HP]].
    destruct (stop <? g_clock_now env k);
      [exists l; split; [reflexivity | exact HP] |].
    destruct (_ <=? _) eqn:Hmax; [exists l; split; [reflexivity | exact HP] |].
    destruct Hp as [Hlt Hp].
    pose proof (Hsub ls (or_introl eq_refl)) as Hin.
    destruct (set_count (LogSegment.offset ls) (trimming_segments l)) eqn:Hc.
    + cbn [bind]. apply IH; try assumption.
      intros x Hx. apply Hsub. right. exact Hx.
    + unfold try_trim. destruct (try_to_expire env ls).
      * cbn [bind]. apply IH; try assumption.
        -- intros x Hx. apply Hsub. right. exact Hx.
        -- apply P_barrier; assumption.
      * destruct (_trimmed_cases ls l Hin) as [(_ & _ & E) | (_ & E)];
          rewrite E; cbn [bind].
        -- apply IH; try assumption.
           intros x Hx. apply Hsub. right. exact Hx.
        -- destruct (removed_fields ls l) as (S & _).
           apply IH; try assumption.
           ++ unfold wf. rewrite S. apply seg_erase_increasing, Hwf.
           ++ intros x Hx. rewrite S. apply seg_erase_In. split.
              ** apply Hsub. right. exact Hx.
              ** specialize (Hlt _ (in_map LogSegment.offset _ _ Hx)). lia.
           ++ apply P_expired; assumption.
Qed.

Lemma trim_turns (l : t) :
  wf l -> P l -> exists l', trim env l = Ok l' /\ P l'.
Proof.
  intros Hwf HP. unfold trim.
  destruct (is_empty (segments l)); [exists l; split; [reflexivity | exact HP] |].
  apply trim_loop_turns; try assumption. intros x Hx. exact Hx.
Qed.
End TrimTurns.

(** X7.  [trim] respects [mds_log_max_trimming] and only ever marks
    segments of the table as trimming: if the trimming set holds at most
    [mds_log_max_trimming] offsets, all of them keys of the table, before
    the call, then so it does after. *)
Theorem trim_bounds_trimming :
  forall (env : Env) (l : t),
    increasing (seg_keys (segments l)) ->
    mds_log_max_trimming (g_conf env) < 2 ^ 31 ->
    size (trimming_segments l) <= mds_log_max_trimming (g_conf env) ->
    (forall o, In o (trimming_segments l) -> In o (seg_keys (segments l))) ->
    exists l',
      trim env l = Ok l'
      /\ size (trimming_segments l') <= mds_log_max_trimming (g_conf env)
      /\ (forall o, In o (trimming_segments l') ->
                    In o (seg_keys (segments l'))).
Proof.
  intros env l Hwf Hm Hsz Hin.
  apply (trim_turns env
           (fun l' =>
              size (trimming_segments l') <= mds_log_max_trimming (g_conf env)
              /\ (forall o, In o (trimming_segments l') ->
                            In o (seg_keys (segments l'))))).
  - intros ls l0 Hls Hc Hmax (H1 & H2).
    cbn [trimming_segments segments set_trimming_segments].
    rewrite set_insert_new by exact Hc. split.
    + rewrite size_app_one.
      rewrite int_cast_small in Hmax by (unfold size in *; lia).
      apply Z.leb_gt in Hmax. lia.
    + intros o Ho. apply in_app_or in Ho. destruct Ho as [Ho | [<- | []]].
      * apply H2, Ho.
      * apply in_map, Hls.
  - intros ls l0 _ Hls Hc (H1 & H2).
    destruct (removed_fields ls l0) as (S & _ & _ & T & _).
    rewrite S, T. split; [exact H1 |].
    intros o Ho. specialize (H2 o Ho).
    apply in_map_iff in H2. destruct H2 as (y & <- & Hy).
    apply in_map. apply seg_erase_In. split; [exact Hy |].
    intros Q. rewrite Q in Ho. apply set_count_In in Ho. congruence.
  - exact Hwf.
  - split; assumption.
Qed.

Lemma trim_bounds_trimming_witness :
  exists l',
    trim env_no_barrier log_three_segments = Ok l'
    /\ size (trimming_segments l') <= 2
    /\ (forall o, In o (trimming_segments l') ->
                  In o (seg_keys (segments l'))).
Proof.
  apply (trim_bounds_trimming env_no_barrier log_three_segments).
  - simpl. repeat split; intros y H; simpl in H;
      repeat (destruct H as [<- | H]; [reflexivity |]); destruct H.
  - reflexivity.
  - discriminate.
  - intros o [].
Defined.

(** ** A barrier that completes *)

Lemma seg_find_In (ls : LogSegment.t) (m : segment_map) :
  increasing (seg_keys m) -> In ls m ->
  seg_find (LogSegment.offset ls) m = Some ls.
Proof.
  unfold seg_find. induction m as [|x m IH]; intros Hi Hin; [contradiction |].
  destruct Hi as [Hlt Hi]. cbn [find]. destruct Hin as [-> | Hin].
  - rewrite Z.eqb_refl. reflexivity.
  - specialize (Hlt _ (in_map LogSegment.offset _ _ Hin)).
    destruct (Z.eqb_spec (LogSegment.offset x) (LogSegment.offset ls)); [lia |].
    apply IH; assumption.
Qed.

Lemma set_trimming_segments_same (l : t) :
  set_trimming_segments (trimming_segments l) l = l.
Proof. destruct l. reflexivity. Qed.

(** X8.  A barrier and its completion cancel out.  If [try_trim] finds work
    pending for a segment of the table that is not trimming yet, it only
    marks the segment; when the barrier fires and nothing is pending any
    more, [_maybe_trimmed] unmarks it and does exactly what [_trimmed]
    would have done in the first place. *)
Theorem barrier_then_maybe_trimmed :
  forall (pending clear : Env) (ls : LogSegment.t) (l : t),
    try_to_expire pending ls = true ->
    try_to_expire clear ls = false ->
    increasing (seg_keys (segments l)) ->
    In ls (segments l) ->
    set_count (LogSegment.offset ls) (trimming_segments l) = false ->
    exists l1,
      try_trim pending ls l = Ok l1
      /\ segments l1 = segments l
      /\ num_events l1 = num_events l
      /\ set_count (LogSegment.offset ls) (trimming_segments l1) = true
      /\ _maybe_trimmed clear (LogSegment.offset ls) l1 = _trimmed ls l.
Proof.
  intros pending clear ls l Hp Hc Hwf Hin Hnot.
  unfold try_trim at 1. rewrite Hp. eexists. split; [reflexivity |].
  split; [reflexivity |]. split; [reflexivity |].
  assert (Hcnt : set_count (LogSegment.offset ls)
                   (set_insert (LogSegment.offset ls) (trimming_segments l))
                 = true).
  { apply set_count_In. rewrite set_insert_new by exact Hnot.
    apply in_or_app. right. left. reflexivity. }
  split; [exact Hcnt |].
  unfold _maybe_trimmed.
  cbn [trimming_segments segments set_trimming_segments].
  rewrite Hcnt. cbn [assert bind].
  rewrite set_erase_insert by exact Hnot.
  rewrite seg_find_In by assumption.
  unfold try_trim. rewrite Hc.
  change (set_trimming_segments (trimming_segments l)
            (set_trimming_segments _ l))
    with (set_trimming_segments (trimming_segments l) l).
  rewrite set_trimming_segments_same. reflexivity.
Qed.

Lemma barrier_then_maybe_trimmed_witness :
  exists l1,
    try_trim (mkEnv (mkConfig true 2) 1024 (fun _ => true) (fun _ => 0) [])
      (LogSegment.mk 0 3) log_three_segments = Ok l1
    /\ segments l1 = segments log_three_segments
    /\ num_events l1 = 12
    /\ set_count 0 (trimming_segments l1) = true
    /\ _maybe_trimmed env_no_barrier 0 l1
       = _trimmed (LogSegment.mk 0 3) log_three_segments.
Proof.
  apply (barrier_then_maybe_trimmed
           (mkEnv (mkConfig true 2) 1024 (fun _ => true) (fun _ => 0) [])
           env_no_barrier (LogSegment.mk 0 3) log_three_segments).
  - reflexivity.
  - reflexivity.
  - simpl. repeat split; intros y H; simpl in H;
      repeat (destruct H as [<- | H]; [reflexivity |]); destruct H.
  - left. reflexivity.
  - reflexivity.
Defined.

(** ** Trimming a capped log *)

Lemma over_budget_segments (left : Z) (l : t) :
  max_segments l = 0 ->
  trimming_segments l = [] ->
  is_empty (segments l) = false ->
  size (segments l) < 2 ^ 31 ->
  over_budget left l = true.
Proof.
  intros Hm Ht Hs Hsz. unfold over_budget. rewrite Hm, Ht.
  change (size (@nil Z)) with 0. rewrite Z.sub_0_r.
  assert (0 < size (segments l))
    by (unfold size; destruct (segments l); [discriminate | cbn; lia]).
  rewrite int_cast_small by lia.
  destruct (Z.ltb_spec 0 (size (segments l))); [| lia].
  cbn [Z.leb Z.compare andb]. apply orb_true_r.
Qed.

Section CappedTrim.
Variable env : Env.
Hypothesis no_barrier : forall s, try_to_expire env s = false.
Hypothesis in_time :
  forall k, g_clock_now env k <= g_clock_now env 0 + 2000000.
Hypothesis may_trim : 0 < mds_log_max_trimming (g_conf env).

Lemma capped_trim_loop (p : list LogSegment.t) :
  forall (k : nat) (left : Z) (l : t),
    segments l = p -> capped l = true -> trimming_segments l = [] ->
    max_segments l = 0 -> size p < 2 ^ 31 -> increasing (seg_keys p) ->
    exists l',
      trim_loop env (g_clock_now env 0 + 2000000) k p left l = Ok l'
      /\ segments l' = []
      /\ num_events l' = num_events l - seg_sum p
      /\ (p = [] -> get_expire_pos l' = get_expire_pos l)
      /\ (forall s, seg_rbegin p = Some s ->
                    get_expire_pos l' = LogSegment.offset s).
Proof.
  induction p as [|ls p IH]; intros k left l Hs Hc Ht Hm Hsz Hi.
  - exists l. cbn [trim_loop seg_sum].
    repeat split; try assumption; try lia. discriminate.
  - cbn [trim_loop].
    rewrite over_budget_segments; try assumption;
      [| rewrite Hs; reflexivity | rewrite Hs; exact Hsz].
    destruct (Z.ltb_spec (g_clock_now env 0 + 2000000) (g_clock_now env k));
      [specialize (in_time k); lia |].
    rewrite Ht. change (size (@nil Z)) with 0.
    rewrite int_cast_small by (cbn; lia).
    destruct (Z.leb_spec (mds_log_max_trimming (g_conf env)) 0); [lia |].
    cbn [set_count existsb].
    unfold try_trim. rewrite no_barrier.
    assert (Hin : In ls (segments l)) by (rewrite Hs; left; reflexivity).
    destruct (_trimmed_cases ls l Hin) as [(C & _) | (_ & E)]; [congruence |].
    rewrite E. cbn [bind].
    destruct (removed_fields ls l) as (Sg & C & N & T & X).
    destruct (removed_untouched ls l) as (_ & _ & _ & _ & _ & _ & M).
    destruct Hi as [Hlt Hi].
    assert (S' : segments (removed ls l) = p).
    { rewrite Sg, Hs, seg_erase_cons, Z.eqb_refl.
      apply seg_erase_above, Hlt. }
    assert (X' : get_expire_pos (removed ls l) = LogSegment.offset ls).
    { rewrite X. unfold is_oldest. rewrite Hs. cbn [seg_begin hd_error].
      rewrite Z.eqb_refl. reflexivity. }
    destruct (IH (S k) (left - LogSegment.num_events ls) (removed ls l))
      as (l' & E' & S2 & N2 & X2 & X3); try congruence.
    { unfold size in *. cbn [List.length] in Hsz. lia. }
    rewrite N in N2.
    exists l'. split; [exact E' |]. split; [exact S2 |].
    split; [cbn [seg_sum]; lia |]. split; [discriminate |].
    intros s Hrb. destruct p as [|y p].
    + injection Hrb as <-. rewrite X2 by reflexivity. exact X'.
    + apply X3. exact Hrb.
Qed.
End CappedTrim.

(** X9.  Once the log is capped the current segment is no longer spared.
    With no barrier pending for any segment, the clock within the two
    seconds, room in the trimming set and a segment budget of zero,
    [trim] after [cap] removes every segment, the current one included;
    [num_events] drops by all their counts and [expire_pos] ends at the
    offset of the segment that was current. *)
Theorem capped_trim_empties_table :
  forall (env : Env) (l : t),
    increasing (seg_keys (segments l)) ->
    trimming_segments l = [] ->
    max_segments l = 0 ->
    size (segments l) < 2 ^ 31 ->
    (forall s, try_to_expire env s = false) ->
    (forall k, g_clock_now env k <= g_clock_now env 0 + 2000000) ->
    0 < mds_log_max_trimming (g_conf env) ->
    exists l1 l',
      cap l = Ok l1
      /\ trim env l1 = Ok l'
      /\ segments l' = []
      /\ num_events l' = num_events l - seg_sum (segments l)
      /\ (forall s, get_current_segment l = Some s ->
                    get_expire_pos l' = LogSegment.offset s).
Proof.
  intros env l Hi Ht Hm Hsz Hb Hclk Hmax.
  exists (set_capped true l). unfold cap, trim.
  cbn [segments set_capped].
  destruct (segments l) as [|x m] eqn:Hs.
  - eexists. split; [reflexivity |]. cbn [is_empty seg_sum].
    repeat split; try assumption; try (cbn; lia).
    unfold get_current_segment. rewrite Hs. discriminate.
  - cbn [is_empty].
    destruct (capped_trim_loop env Hb Hclk Hmax (x :: m) 1%nat
                (num_events (set_capped true l)) (set_capped true l))
      as (l' & E & S & N & _ & X); try assumption; try reflexivity.
    exists l'. split; [reflexivity |]. split; [exact E |].
    split; [exact S |]. split; [exact N |].
    intros s Hcur. apply X. unfold get_current_segment in Hcur.
    rewrite Hs in Hcur. exact Hcur.
Qed.

Lemma capped_trim_empties_table_witness :
  exists l1 l',
    cap (set_max_segments_zero log_three_segments) = Ok l1
    /\ trim env_no_barrier l1 = Ok l'
    /\ segments l' = []
    /\ num_events l' = 12 - 12
    /\ (forall s, Some (LogSegment.mk 4096 5) = Some s ->
                  get_expire_pos l' = LogSegment.offset s).
Proof.
  apply (capped_trim_empties_table env_no_barrier
           (set_max_segments_zero log_three_segments)).
  - simpl. repeat split; intros y H; simpl in H;
      repeat (destruct H as [<- | H]; [reflexivity |]); destruct H.
  - reflexivity.
  - reflexivity.
  - reflexivity.
  - reflexivity.
  - intros k. discriminate.
  - reflexivity.
Defined.

(** ** Preconditions of [submit_entry] *)

(** X10.  With logging enabled [submit_entry] fails fast.  On a log that
    has no segment yet, as [create] and [append] leave a new log, it
    fails [assert(!segments.empty())]; after [cap] it fails an assertion
    whatever the table holds.  In neither case is a state returned. *)
Theorem submit_entry_fails_fast :
  forall (env : Env) (le : LogEvent) (c : option Context),
    mds_log (g_conf env) = true ->
    (forall l, segments l = [] ->
               submit_entry env le c l = AssertFail "!segments.empty()")
    /\ (forall (c0 : option Context) (j : Journaler.t) (max_ev max_seg : Z),
           exists l1,
             create c0 (init j max_ev max_seg) = Ok l1
             /\ submit_entry env le c l1 = AssertFail "!segments.empty()")
    /\ (forall (j : Journaler.t) (max_ev max_seg : Z),
           exists l1,
             append (init j max_ev max_seg) = Ok l1
             /\ submit_entry env le c l1 = AssertFail "!segments.empty()")
    /\ (forall l,
           exists l1,
             cap l = Ok l1
             /\ submit_entry env le c l1
                = (if is_empty (segments l)
                   then AssertFail "!segments.empty()"
                   else AssertFail "!capped")).
Proof.
  intros env le c He.
  assert (Hempty : forall l, segments l = [] ->
             submit_entry env le c l = AssertFail "!segments.empty()").
  { intros l Hs. rewrite submit_entry_enabled by exact He.
    rewrite Hs. reflexivity. }
  split; [exact Hempty |]. split; [| split].
  - intros c0 j me ms. eexists. split; [reflexivity |].
    apply Hempty. destruct c0; reflexivity.
  - intros j me ms. eexists. split; [reflexivity |].
    apply Hempty. reflexivity.
  - intros l. eexists. split; [reflexivity |].
    rewrite submit_entry_enabled by exact He.
    cbn [segments capped set_capped].
    destruct (is_empty (segments l)); reflexivity.
Qed.

Lemma submit_entry_fails_fast_witness :
  exists l1,
    cap log_one_event = Ok l1
    /\ submit_entry env_enabled event_A None l1 = AssertFail "!capped".
Proof.
  apply (proj2 (proj2 (proj2
           (submit_entry_fails_fast env_enabled event_A None eq_refl)))
           log_one_event).
Defined.

(** ** The checkpoint guard *)

Lemma finish_contexts_guard (ls : list Context) (r : Z) (l : t) :
  writing_subtree_map l = false
  \/ (exists off, In (C_MDL_WroteSubtreeMap off) ls) ->
  writing_subtree_map (finish_contexts ls r l) = false.
Proof.
  revert l. induction ls as [|c ls IH]; intros l H; cbn [finish_contexts].
  - destruct H as [H | (off & [])]. exact H.
  - apply IH. destruct c as [off|id].
    + left. reflexivity.
    + destruct H as [H | (off & [Q | Hin])].
      * left. exact H.
      * discriminate.
      * right. exists off. exact Hin.
Qed.

Lemma journaler_flushed_fields (l : t) :
  writing_subtree_map (journaler_flushed l)
  = writing_subtree_map
      (finish_contexts (Journaler.waitfor_flush (journaler l)) 0 l)
  /\ segments (journaler_flushed l) = segments l
  /\ num_events (journaler_flushed l) = num_events l
  /\ capped (journaler_flushed l) = capped l
  /\ get_write_pos (journaler_flushed l) = get_write_pos l
  /\ Journaler.waitfor_flush (journaler (journaler_flushed l)) = [].
Proof.
  unfold journaler_flushed.
  match goal with
  | |- context [finish_contexts ?ls 0 ?s] =>
      destruct (finish_contexts_fields ls 0 s) as (N & S & J & C)
  end.
  unfold get_write_pos. rewrite S, N, J, C.
  split; [| repeat split].
  clear. generalize (Journaler.waitfor_flush (journaler l)) as ls.
  generalize (Journaler.mk (Journaler.active (journaler l))
                (Journaler.expire_pos (journaler l))
                (Journaler.read_pos (journaler l))
                (Journaler.write_pos (journaler l))
                (Journaler.body (journaler l)) []
                (Journaler.head_waiters (journaler l))) as j.
  intros j ls. revert l. induction ls as [|c ls IH]; intros l.
  - reflexivity.
  - cbn [finish_contexts].
    replace (finish c 0 (set_journaler j l))
      with (set_journaler j (finish c 0 l)) by (destruct c; reflexivity).
    apply IH.
Qed.

(** X11.  [writing_subtree_map] keeps checkpoints from overlapping.  On an
    enabled, uncapped log that is not writing one, [start_new_segment]
    opens a segment at [write_pos] holding the checkpoint and sets the
    flag; while it is set a further [start_new_segment] fails
    [assert(!writing_subtree_map)]; when the streamer completes the flush
    the flag is cleared, the table is as it was, and the next
    [start_new_segment] succeeds. *)
Theorem checkpoint_guard :
  forall (env : Env) (onsync : option Context) (l : t),
    mds_log (g_conf env) = true ->
    writing_subtree_map l = false ->
    capped l = false ->
    (forall k, In k (seg_keys (segments l)) -> k < get_write_pos l) ->
    exists l1,
      start_new_segment env None l = Ok l1
      /\ segments l1 = segments l ++ [LogSegment.mk (get_write_pos l) 1]
      /\ num_events l1 = num_events l + 1
      /\ writing_subtree_map l1 = true
      /\ start_new_segment env onsync l1 = AssertFail "!writing_subtree_map"
      /\ writing_subtree_map (journaler_flushed l1) = false
      /\ segments (journaler_flushed l1) = segments l1
      /\ exists l2,
          start_new_segment env None (journaler_flushed l1) = Ok l2
          /\ writing_subtree_map l2 = true.
Proof.
  intros env onsync l He Hw Hc Hk.
  rewrite start_new_segment_enabled by assumption.
  eexists. split; [reflexivity |].
  match goal with
  | |- context [submitted ?e ?k (segment_opened ?s)] =>
      destruct (submitted_fields e k (segment_opened s))
        as (S2 & N2 & _ & _ & _ & Wsm2 & C2 & _);
      destruct (segment_opened_fields s) as (S1 & N1 & _ & _ & _ & Wsm1 & C1 & _);
      set (l1 := submitted e k (segment_opened s)) in *
  end.
  assert (Hflush : In (C_MDL_WroteSubtreeMap (get_write_pos l))
                      (Journaler.waitfor_flush (journaler l1))).
  { subst l1. cbn. apply in_or_app. right. left. reflexivity. }
  destruct (journaler_flushed_fields l1) as (F1 & F2 & F3 & F4 & _).
  assert (Fw : writing_subtree_map (journaler_flushed l1) = false).
  { rewrite F1. apply finish_contexts_guard. right.
    exists (get_write_pos l). exact Hflush. }
  split.
  { rewrite S2, S1. rewrite seg_insert_above by exact Hk.
    rewrite seg_inc_last_app. reflexivity. }
  split; [rewrite N2, N1; reflexivity |].
  split; [rewrite Wsm2; exact Wsm1 |].
  split.
  { unfold start_new_segment, start_new_segment_with.
    rewrite Wsm2, Wsm1. reflexivity. }
  split; [exact Fw |]. split; [exact F2 |].
  rewrite start_new_segment_enabled; [| exact He | exact Fw | congruence].
  eexists. split; [reflexivity |].
  match goal with
  | |- writing_subtree_map (submitted ?e ?k (segment_opened ?s)) = true =>
      destruct (submitted_fields e k (segment_opened s))
        as (_ & _ & _ & _ & _ & W4 & _);
      destruct (segment_opened_fields s) as (_ & _ & _ & _ & _ & W3 & _)
  end.
  congruence.
Qed.

Lemma checkpoint_guard_witness :
  exists l1,
    start_new_segment env_enabled None log_one_event = Ok l1
    /\ segments l1 = [LogSegment.mk 0 1; LogSegment.mk 8 1]
    /\ num_events l1 = 2
    /\ writing_subtree_map l1 = true
    /\ start_new_segment env_enabled None l1
       = AssertFail "!writing_subtree_map"
    /\ writing_subtree_map (journaler_flushed l1) = false
    /\ segments (journaler_flushed l1) = segments l1
    /\ exists l2,
        start_new_segment env_enabled None (journaler_flushed l1) = Ok l2
        /\ writing_subtree_map l2 = true.
Proof.
  apply (checkpoint_guard env_enabled None log_one_event).
  - reflexivity.
  - reflexivity.
  - reflexivity.
  - intros k [<- | []]. reflexivity.
Defined.

(** ** Nothing to replay at the tail *)

Lemma replay_at_tail (c : Context) (l : t) :
  Journaler.active (journaler l) = true ->
  get_expire_pos l = get_write_pos l ->
  replay (Some c) l
  = Ok (finish c 0
          (set_journaler
             (Journaler.set_read_pos (get_expire_pos l) (journaler l)) l)).
Proof.
  intros Ha He. unfold replay. rewrite Ha. cbn [assert bind].
  unfold get_read_pos, get_write_pos, get_expire_pos in *.
  cbn [journaler set_journaler Journaler.set_read_pos Journaler.read_pos
         Journaler.write_pos].
  rewrite He, Z.eqb_refl. reflexivity.
Qed.

(** X12.  A log positioned at its tail has nothing to replay.  After
    [create] (an empty stream) and after [append] on an active streamer
    (read and expire pointers moved to [write_pos]), [replay] completes
    its callback at once with 0, starts no worker, queues nothing and
    leaves [num_events] and the segment table as they were. *)
Theorem replay_after_positioning :
  forall (c : Context) (l : t),
    (forall c0,
        exists l1 l2,
          create c0 l = Ok l1
          /\ replay (Some c) l1 = Ok l2
          /\ finished l2 = finished l ++ [(c, 0)]
          /\ replay_thread_created l2 = replay_thread_created l
          /\ waitfor_replay l2 = waitfor_replay l
          /\ num_events l2 = num_events l
          /\ segments l2 = segments l)
    /\ (Journaler.active (journaler l) = true ->
        exists l1 l2,
          append l = Ok l1
          /\ get_read_pos l1 = get_write_pos l
          /\ get_expire_pos l1 = get_write_pos l
          /\ get_write_pos l1 = get_write_pos l
          /\ replay (Some c) l1 = Ok l2
          /\ finished l2 = finished l ++ [(c, 0)]
          /\ replay_thread_created l2 = replay_thread_created l
          /\ waitfor_replay l2 = waitfor_replay l
          /\ num_events l2 = num_events l
          /\ segments l2 = segments l).
Proof.
  intros c l. split.
  - intros c0. eexists. eexists. split; [reflexivity |]. split.
    + apply replay_at_tail; destruct c0; reflexivity.
    + destruct c, c0; repeat split; reflexivity.
  - intros Ha. eexists. eexists. split; [reflexivity |].
    split; [reflexivity |]. split; [reflexivity |]. split; [reflexivity |].
    split.
    + apply replay_at_tail; [exact Ha | reflexivity].
    + destruct c; repeat split; reflexivity.
Qed.

Lemma replay_after_positioning_witness :
  exists l1 l2,
    append log_read_at_tail = Ok l1
    /\ get_read_pos l1 = 100
    /\ get_expire_pos l1 = 100
    /\ get_write_pos l1 = 100
    /\ replay (Some (C_Caller 0)) l1 = Ok l2
    /\ finished l2 = [(C_Caller 0, 0)]
    /\ replay_thread_created l2 = false
    /\ waitfor_replay l2 = []
    /\ num_events l2 = 0
    /\ segments l2 = [].
Proof.
  apply (proj2 (replay_after_positioning (C_Caller 0) log_read_at_tail)).
  reflexivity.
Defined.

(** ** Streams laid out end to end *)

Lemma total_length_app (a b : list LogEvent) :
  total_length (a ++ b) = total_length a + total_length b.
Proof.
  induction a as [|e a IH]; cbn [app total_length]; [reflexivity |].
  rewrite IH. lia.
Qed.

Lemma laid_out_app (p : Z) (a b : list LogEvent) :
  laid_out p (a ++ b) = laid_out p a ++ laid_out (p + total_length a) b.
Proof.
  revert p. induction a as [|e a IH]; intros p; cbn [app laid_out total_length].
  - rewrite Z.add_0_r. reflexivity.
  - rewrite IH. rewrite Z.add_assoc. reflexivity.
Qed.

Lemma laid_out_beyond (q p : Z) (es : list LogEvent) :
  q < p -> find (fun x => fst x =? q) (laid_out p es) = None.
Proof.
  revert p. induction es as [|e es IH]; intros p H; [reflexivity |].
  cbn [laid_out find fst].
  destruct (Z.eqb_spec p q); [lia |].
  apply IH. pose proof (encoded_length_pos e). lia.
Qed.

Lemma laid_out_entry (p : Z) (done : list LogEvent) (e : LogEvent)
      (es : list LogEvent) :
  find (fun x => fst x =? p + total_length done)
       (laid_out p (done ++ e :: es))
  = Some (p + total_length done, e).
Proof.
  revert p. induction done as [|d done IH]; intros p.
  - cbn [app total_length laid_out find fst]. rewrite Z.add_0_r.
    rewrite Z.eqb_refl. reflexivity.
  - cbn [app total_length laid_out find fst].
    pose proof (encoded_length_pos d). pose proof (total_length_nonneg done).
    destruct (Z.eqb_spec p (p + (encoded_length d + total_length done)));
      [lia |].
    rewrite Z.add_assoc. apply IH.
Qed.

Lemma laid_out_end (p : Z) (es : list LogEvent) :
  find (fun x => fst x =? p + total_length es) (laid_out p es) = None.
Proof.
  revert p. induction es as [|e es IH]; intros p; [reflexivity |].
  cbn [total_length laid_out find fst].
  pose proof (encoded_length_pos e). pose proof (total_length_nonneg es).
  destruct (Z.eqb_spec p (p + (encoded_length e + total_length es))); [lia |].
  rewrite Z.add_assoc. apply IH.
Qed.

(** ** A turn of the worker *)

Lemma _replay_loop_turn (fuel : nat) (nep : Z) (l : t) (le : LogEvent) :
  Journaler.entry_at (get_read_pos l) (journaler l) = Some le ->
  (forall k, In k (seg_keys (segments l)) -> k < get_read_pos l) ->
  _replay_loop (S fuel) nep l
  = _replay_loop fuel (replay_turn_nep le nep l) (replay_turn le l).
Proof.
  intros H Hk. rewrite (_replay_loop_read fuel nep l le H).
  unfold replay_turn, replay_turn_nep, replay_turn_applies. cbv zeta.
  destruct (is_subtreemap (_type le)).
  - cbn [segments set_segments set_journaler orb].
    rewrite seg_insert_nonempty. reflexivity.
  - cbn [segments set_journaler orb].
    destruct (is_empty (segments l)); reflexivity.
Qed.

Lemma replay_turn_fields (le : LogEvent) (l : t) :
  (forall k, In k (seg_keys (segments l)) -> k < get_read_pos l) ->
  segments (replay_turn le l)
  = segments l
    ++ (if is_subtreemap (_type le)
        then [LogSegment.new (get_read_pos l)] else [])
  /\ replayed (replay_turn le l)
     = replayed l ++ (if replay_turn_applies le l then [le] else [])
  /\ num_events (replay_turn le l)
     = num_events l + (if replay_turn_applies le l then 1 else 0)
  /\ get_read_pos (replay_turn le l) = get_read_pos l + encoded_length le
  /\ get_write_pos (replay_turn le l) = get_write_pos l
  /\ Journaler.body (journaler (replay_turn le l))
     = Journaler.body (journaler l)
  /\ waitfor_replay (replay_turn le l) = waitfor_replay l
  /\ finished (replay_turn le l) = finished l.
Proof.
  intros Hk. unfold replay_turn, replay_turn_applies. cbv zeta.
  destruct (is_subtreemap (_type le)).
  - cbn [segments set_segments set_journaler orb].
    rewrite seg_insert_nonempty.
    rewrite seg_insert_above
      by (cbn [LogSegment.new LogSegment.offset]; exact Hk).
    repeat split; reflexivity.
  - cbn [segments set_journaler orb]. rewrite app_nil_r.
    destruct (is_empty (segments l)); cbn [negb];
      repeat split; try reflexivity;
      try (rewrite app_nil_r; reflexivity); try (rewrite Z.add_0_r; reflexivity).
Qed.

Lemma app_if_nil {A : Type} (b : bool) (x : A) (r : list A) :
  (if b then [x] else []) ++ r = if b then x :: r else r.
Proof. destruct b; reflexivity. Qed.

(** The worker's loop on a stream laid out end to end: it returns, having
    read to [write_pos]. *)
Lemma _replay_loop_stream (p0 : Z) (all : list LogEvent) :
  forall (es done : list LogEvent) (n : nat) (nep : Z) (l : t),
    all = done ++ es ->
    Journaler.body (journaler l) = laid_out p0 all ->
    get_read_pos l = p0 + total_length done ->
    get_write_pos l = p0 + total_length all ->
    (forall k, In k (seg_keys (segments l)) -> k < get_read_pos l) ->
    exists nep' l',
      _replay_loop (S (List.length es) + n) nep l = Ok (nep', l')
      /\ replayed l'
         = replayed l
           ++ (if is_empty (segments l) then from_first_checkpoint es else es)
      /\ num_events l'
         = num_events l
           + Z.of_nat (List.length
                         (if is_empty (segments l)
                          then from_first_checkpoint es else es))
      /\ segments l'
         = segments l
           ++ map LogSegment.new (checkpoint_positions (get_read_pos l) es)
      /\ get_read_pos l' = get_write_pos l'
      /\ get_write_pos l' = get_write_pos l
      /\ waitfor_replay l' = waitfor_replay l
      /\ finished l' = finished l
      /\ (nep <> 0 -> nep' = nep)
      /\ (nep = 0 -> is_empty (segments l) = false -> es <> [] ->
          get_read_pos l <> 0 -> nep' = get_read_pos l).
Proof.
  induction es as [|e es IH]; intros done n nep l Hall Hb Hr Hw Hk.
  - rewrite app_nil_r in Hall. subst done.
    exists nep, l. cbn [List.length Nat.add].
    rewrite _replay_loop_end;
      [| unfold Journaler.entry_at; rewrite Hb, Hr, laid_out_end; reflexivity
       | congruence].
    split; [reflexivity |].
    cbn [from_first_checkpoint checkpoint_positions map List.length Z.of_nat].
    destruct (is_empty (segments l)); rewrite !app_nil_r, Z.add_0_r;
      repeat split; try congruence.
  - assert (He : Journaler.entry_at (get_read_pos l) (journaler l) = Some e).
    { unfold Journaler.entry_at. rewrite Hb, Hr, Hall, laid_out_entry.
      reflexivity. }
    cbn [List.length Nat.add].
    rewrite (_replay_loop_turn _ nep l e He Hk).
    destruct (replay_turn_fields e l Hk)
      as (S1 & R1 & N1 & P1 & W1 & B1 & Q1 & F1).
    pose proof (encoded_length_pos e) as Hle.
    destruct (IH (done ++ [e]) n (replay_turn_nep e nep l) (replay_turn e l))
      as (nep' & l' & E & R & N & S & P & W & Q & F & K1 & K2).
    + rewrite <- app_assoc. exact Hall.
    + congruence.
    + rewrite P1, Hr, total_length_app. cbn [total_length]. lia.
    + congruence.
    + intros k Hk'. rewrite S1 in Hk'. rewrite seg_keys_app_list in Hk'.
      apply in_app_or in Hk'. rewrite P1. destruct Hk' as [Hk' | Hk'].
      * apply Hk in Hk'. lia.
      * destruct (is_subtreemap (_type e)); [| destruct Hk'].
        destruct Hk' as [<- | []]. cbn [LogSegment.new LogSegment.offset]. lia.
    + exists nep', l'. split; [exact E |].
      assert (Emp : is_empty (segments (replay_turn e l))
                    = negb (replay_turn_applies e l)).
      { rewrite S1. unfold replay_turn_applies.
        destruct (is_subtreemap (_type e)), (segments l); reflexivity. }
      rewrite Emp in R, N, K2.
      rewrite R, N, S, R1, N1, S1, P1, W, W1, Q, Q1, F, F1.
      cbn [from_first_checkpoint checkpoint_positions].
      unfold replay_turn_applies in *.
      unfold replay_turn_nep, replay_turn_applies in K1, K2.
      destruct (is_subtreemap (_type e)) eqn:Ec;
        destruct (is_empty (segments l)) eqn:Es;
        cbn [orb negb app map List.length] in *;
        rewrite <- ?app_assoc; cbn [app].
      all: split; [reflexivity |].
      all: split; [rewrite ?Nat2Z.inj_succ; lia |].
      all: split; [reflexivity |].
      all: split; [congruence |].
      all: split; [reflexivity |].
      all: split; [reflexivity |].
      all: split; [reflexivity |].
      all: split;
        [ intros Hn; apply Z.eqb_neq in Hn; rewrite ?Hn in K1;
          apply K1; apply Z.eqb_neq; exact Hn
        | intros Hn0 Hne _ Hpos; try discriminate;
          subst nep; cbn [Z.eqb] in K1; apply K1; exact Hpos ].
Qed.

(** ** From [replay] to the end of the worker *)

Lemma replay_to_end_nonempty (fuel : nat) (c : option Context) (l : t) :
  Journaler.active (journaler l) = true ->
  get_expire_pos l <> get_write_pos l ->
  num_events l = 0 ->
  replay_to_end fuel c l = _replay_thread fuel (replay_started c l).
Proof.
  intros Ha Hne Hn. unfold replay_to_end.
  rewrite replay_nonempty by assumption. rewrite Hn. cbn [Z.eqb assert bind].
  fold (replay_started c l). reflexivity.
Qed.

Lemma replay_started_fields (c : option Context) (l : t) :
  Journaler.body (journaler (replay_started c l))
  = Journaler.body (journaler l)
  /\ get_read_pos (replay_started c l) = get_expire_pos l
  /\ get_expire_pos (replay_started c l) = get_expire_pos l
  /\ get_write_pos (replay_started c l) = get_write_pos l
  /\ segments (replay_started c l) = segments l
  /\ num_events (replay_started c l) = num_events l
  /\ replayed (replay_started c l) = replayed l
  /\ finished (replay_started c l) = finished l
  /\ waitfor_replay (replay_started c l)
     = waitfor_replay l ++ match c with Some c0 => [c0] | None => [] end.
Proof.
  destruct c; repeat split; try reflexivity.
  cbn. rewrite app_nil_r. reflexivity.
Qed.

Lemma finish_replayed (c : Context) (r : Z) (l : t) :
  replayed (finish c r l) = replayed l
  /\ waitfor_replay (finish c r l) = waitfor_replay l.
Proof. destruct c; split; reflexivity. Qed.

Lemma finish_contexts_trace (ls : list Context) (r : Z) (l : t) :
  replayed (finish_contexts ls r l) = replayed l
  /\ waitfor_replay (finish_contexts ls r l) = waitfor_replay l
  /\ finished (finish_contexts ls r l)
     = finished l ++ map (fun c => (c, r)) ls.
Proof.
  revert l. induction ls as [|c ls IH]; intros l; cbn [finish_contexts map].
  - rewrite app_nil_r. repeat split.
  - destruct (IH (finish c r l)) as (R & Q & F).
    destruct (finish_replayed c r l) as (R' & Q').
    destruct (finish_fields c r l) as (F' & _).
    rewrite R, Q, F, R', Q', F', <- app_assoc. repeat split.
Qed.

Lemma _replay_thread_done (fuel : nat) (l l' : t) (nep : Z) :
  _replay_loop fuel (get_expire_pos l) l = Ok (nep, l') ->
  get_read_pos l' = get_write_pos l' ->
  exists lf,
    _replay_thread fuel l = Ok lf
    /\ replayed lf = replayed l'
    /\ num_events lf = num_events l'
    /\ segments lf = segments l'
    /\ get_read_pos lf = nep
    /\ get_expire_pos lf = nep
    /\ get_write_pos lf = get_write_pos l'
    /\ waitfor_replay lf = []
    /\ finished lf
       = finished l' ++ map (fun c => (c, 0)) (waitfor_replay l').
Proof.
  intros E Hrw. unfold _replay_thread. rewrite E. cbn [bind].
  rewrite Hrw, Z.eqb_refl. cbn [assert bind].
  eexists. split; [reflexivity |].
  match goal with
  | |- context [finish_contexts ?ls 0 ?s] =>
      destruct (finish_contexts_fields ls 0 s) as (N & S & J & _);
      destruct (finish_contexts_trace ls 0 s) as (R & Q & F)
  end.
  unfold get_read_pos, get_expire_pos, get_write_pos.
  rewrite R, N, S, J, Q, F. repeat split.
Qed.

(** The replay of a recovered stream by a log that holds nothing yet. *)
Lemma replay_to_end_stream (es : list LogEvent) (c : option Context)
      (n : nat) (l : t) :
  Journaler.active (journaler l) = true ->
  Journaler.body (journaler l) = laid_out (get_expire_pos l) es ->
  get_write_pos l = get_expire_pos l + total_length es ->
  num_events l = 0 -> segments l = [] -> waitfor_replay l = [] ->
  replay_thread_created l = false ->
  exists l',
    replay_to_end (S (List.length es) + n) c l = Ok l'
    /\ replayed l' = replayed l ++ from_first_checkpoint es
    /\ num_events l' = Z.of_nat (List.length (from_first_checkpoint es))
    /\ segments l'
       = map LogSegment.new (checkpoint_positions (get_expire_pos l) es)
    /\ get_read_pos l' = get_expire_pos l'
    /\ (get_expire_pos l <> 0 -> get_expire_pos l' = get_expire_pos l)
    /\ get_write_pos l' = get_write_pos l
    /\ waitfor_replay l' = []
    /\ finished l' = finished l ++ completed c.
Proof.
  intros Ha Hb Hw Hn Hs Hq Ht.
  destruct es as [|e es].
  - cbn [total_length] in Hw. rewrite Z.add_0_r in Hw.
    cbn [from_first_checkpoint checkpoint_positions map List.length Z.of_nat].
    rewrite app_nil_r.
    unfold replay_to_end, replay. rewrite Ha. cbn [assert bind].
    unfold get_read_pos, get_write_pos, get_expire_pos in *.
    cbn [journaler set_journaler Journaler.set_read_pos Journaler.read_pos
           Journaler.write_pos].
    rewrite Hw, Z.eqb_refl.
    destruct c as [[off|id]|]; cbn [bind];
      cbn [replay_thread_created finish set_finished _logged_subtree_map
             set_writing_subtree_map set_journaler];
      rewrite Ht;
      (eexists; split; [reflexivity |]);
      cbn; rewrite ?app_nil_r; repeat split; congruence.
  - pose proof (encoded_length_pos e) as Hle.
    pose proof (total_length_nonneg es) as Hes.
    rewrite replay_to_end_nonempty;
      [| exact Ha | cbn [total_length] in Hw; lia | exact Hn].
    destruct (replay_started_fields c l)
      as (B1 & P1 & X1 & W1 & S1 & N1 & R1 & F1 & Q1).
    destruct (_replay_loop_stream (get_expire_pos l) (e :: es) (e :: es) []
                n (get_expire_pos (replay_started c l)) (replay_started c l))
      as (nep' & l' & E & R & N & S & P & W & Q & F & K1 & _).
    + reflexivity.
    + congruence.
    + cbn [total_length]. rewrite P1. lia.
    + congruence.
    + rewrite S1, Hs. intros k [].
    + destruct (_replay_thread_done _ _ _ _ E P)
        as (lf & Ef & Rf & Nf & Sf & Pf & Xf & Wf & Qf & Ff).
      exists lf. split; [exact Ef |].
      rewrite S1, Hs in R, N, S. cbn [is_empty app] in R, N, S.
      rewrite Rf, Nf, Sf, Pf, Xf, Wf, Ff, R, N, S, W, Q, F.
      rewrite R1, N1, Hn, P1, W1, F1, Q1, Hq.
      split; [reflexivity |]. split; [lia |]. split; [reflexivity |].
      split; [reflexivity |].
      split; [rewrite X1 in K1; exact K1 |].
      split; [reflexivity |]. split; [exact Qf |].
      destruct c; reflexivity.
Qed.

(** X13.  Replay fidelity.  A new log replaying a recovered stream whose
    entries lie end to end from [expire_pos] to [write_pos] returns (the
    worker needs one turn per entry and one more), having applied to the
    cache, in stream order, exactly the entries from the first checkpoint
    on; [num_events] is their number, the table holds one empty-counted
    segment per checkpoint, keyed by the checkpoint's position; the read
    and expire pointers end up equal (at the old [expire_pos] when that
    is not 0), [write_pos] is untouched, and the callback has been
    completed with 0. *)
Theorem replay_stream_fidelity :
  forall (es : list LogEvent) (j : Journaler.t) (max_ev max_seg : Z)
         (c : option Context) (n : nat),
    Journaler.active j = true ->
    Journaler.body j = laid_out (Journaler.expire_pos j) es ->
    Journaler.write_pos j = Journaler.expire_pos j + total_length es ->
    exists l',
      replay_to_end (S (List.length es) + n) c (init j max_ev max_seg) = Ok l'
      /\ replayed l' = from_first_checkpoint es
      /\ num_events l' = Z.of_nat (List.length (from_first_checkpoint es))
      /\ segments l'
         = map LogSegment.new
             (checkpoint_positions (Journaler.expire_pos j) es)
      /\ get_read_pos l' = get_expire_pos l'
      /\ (Journaler.expire_pos j <> 0 ->
          get_expire_pos l' = Journaler.expire_pos j)
      /\ get_write_pos l' = Journaler.write_pos j
      /\ waitfor_replay l' = []
      /\ finished l' = completed c.
Proof.
  intros es j me ms c n Ha Hb Hw.
  exact (replay_to_end_stream es c n (init j me ms) Ha Hb Hw
           eq_refl eq_refl eq_refl eq_refl).
Qed.

Lemma replay_stream_fidelity_witness :
  exists l',
    replay_to_end (S 4 + 0) (Some (C_Caller 0))
      (init (Journaler.mk true 0 0 16
               (laid_out 0 [event_A; event_B; event_C; event_D]) [] [])
            (-1) (-1)) = Ok l'
    /\ replayed l' = [event_C; event_D]
    /\ num_events l' = 2
    /\ segments l' = [LogSegment.mk 8 0]
    /\ get_read_pos l' = get_expire_pos l'
    /\ (0 <> 0 -> get_expire_pos l' = 0)
    /\ get_write_pos l' = 16
    /\ waitfor_replay l' = []
    /\ finished l' = [(C_Caller 0, 0)].
Proof.
  apply (replay_stream_fidelity [event_A; event_B; event_C; event_D]
           (Journaler.mk true 0 0 16
              (laid_out 0 [event_A; event_B; event_C; event_D]) [] [])
           (-1) (-1) (Some (C_Caller 0)) 0%nat); reflexivity.
Defined.

(** X14.  Zero doubles as "not set" for the worker's [new_expire_pos].  When
    the recovered stream starts at offset 0 with a checkpoint followed by
    at least one more entry, the replay ends with the read and expire
    pointers at the second entry, behind the checkpoint, while the table's
    first segment is the one at 0. *)
Theorem replay_from_zero_expire_pos :
  forall (c e : LogEvent) (rest : list LogEvent) (j : Journaler.t)
         (max_ev max_seg : Z) (cb : option Context) (n : nat),
    is_subtreemap (_type c) = true ->
    Journaler.active j = true ->
    Journaler.expire_pos j = 0 ->
    Journaler.body j = laid_out 0 (c :: e :: rest) ->
    Journaler.write_pos j = total_length (c :: e :: rest) ->
    exists l',
      replay_to_end (S (List.length (c :: e :: rest)) + n) cb
        (init j max_ev max_seg) = Ok l'
      /\ get_expire_pos l' = encoded_length c
      /\ get_read_pos l' = encoded_length c
      /\ exists m, segments l' = LogSegment.mk 0 0 :: m.
Proof.
  intros c e rest j me ms cb n Hc Ha Hx Hb Hw.
  pose proof (encoded_length_pos c) as Hlc.
  pose proof (encoded_length_pos e) as Hle.
  pose proof (total_length_nonneg rest) as Hrest.
  set (l := init j me ms).
  assert (Xl : get_expire_pos l = 0) by exact Hx.
  rewrite replay_to_end_nonempty;
    [| exact Ha
     | change (get_write_pos l) with (Journaler.write_pos j);
       rewrite Xl, Hw; cbn [total_length]; lia
     | reflexivity].
  destruct (replay_started_fields cb l)
    as (B1 & P1 & X1 & W1 & S1 & N1 & R1 & F1 & Q1).
  set (l1 := replay_started cb l) in *.
  assert (He : Journaler.entry_at (get_read_pos l1) (journaler l1) = Some c).
  { unfold Journaler.entry_at. rewrite B1, P1, Xl.
    change (Journaler.body (journaler l)) with (Journaler.body j).
    rewrite Hb. cbn [laid_out find fst Z.eqb]. reflexivity. }
  assert (Hk : forall k, In k (seg_keys (segments l1)) -> k < get_read_pos l1)
    by (rewrite S1; intros k []).
  destruct (replay_turn_fields c l1 Hk)
    as (S2 & _ & _ & P2 & W2 & B2 & _).
  rewrite Hc, S1, P1, Xl in S2.
  change (segments l) with (@nil LogSegment.t) in S2. cbn [app] in S2.
  rewrite P1, Xl, Z.add_0_l in P2.
  assert (Nep : replay_turn_nep c (get_expire_pos l1) l1 = 0).
  { unfold replay_turn_nep, replay_turn_applies. rewrite Hc, X1, Xl, P1.
    cbn [orb Z.eqb]. exact Xl. }
  destruct (_replay_loop_stream 0 (c :: e :: rest) (e :: rest) [c] n
              (replay_turn_nep c (get_expire_pos l1) l1) (replay_turn c l1))
    as (nep' & l' & E & _ & _ & Sg & P & _ & _ & _ & _ & K2).
  - reflexivity.
  - rewrite B2, B1. exact Hb.
  - rewrite P2. cbn [total_length]. lia.
  - rewrite W2, W1. change (get_write_pos l) with (Journaler.write_pos j).
    rewrite Hw. reflexivity.
  - rewrite S2, P2. intros k [<- | []]. cbn [LogSegment.new LogSegment.offset].
    lia.
  - assert (E0 : _replay_loop (S (List.length (c :: e :: rest)) + n)
                   (get_expire_pos l1) l1 = Ok (nep', l')).
    { change (S (List.length (c :: e :: rest)) + n)%nat
        with (S (S (List.length (e :: rest)) + n)).
      rewrite (_replay_loop_turn _ _ l1 c He Hk). exact E. }
    destruct (_replay_thread_done _ _ _ _ E0 P)
      as (lf & Ef & _ & _ & Sf & Pf & Xf & _).
    assert (Hnep : nep' = encoded_length c).
    { rewrite <- P2. apply K2.
      - exact Nep.
      - rewrite S2. reflexivity.
      - discriminate.
      - rewrite P2. lia. }
    exists lf. split; [exact Ef |].
    split; [congruence |]. split; [congruence |].
    rewrite Sf, Sg, S2. eexists. reflexivity.
Qed.

Lemma replay_from_zero_expire_pos_witness :
  exists l',
    replay_to_end (S 2 + 0) None
      (init (Journaler.mk true 0 0 8 (laid_out 0 [event_C; event_D]) [] [])
            (-1) (-1)) = Ok l'
    /\ get_expire_pos l' = 4
    /\ get_read_pos l' = 4
    /\ exists m, segments l' = LogSegment.mk 0 0 :: m.
Proof.
  apply (replay_from_zero_expire_pos event_C event_D []
           (Journaler.mk true 0 0 8 (laid_out 0 [event_C; event_D]) [] [])
           (-1) (-1) None 0%nat); reflexivity.
Defined.

(** ** Writing a log and reading it back *)

Lemma start_stream (env : Env) (j : Journaler.t) (max_ev max_seg : Z) :
  mds_log (g_conf env) = true ->
  exists l1 l2,
    create None (init j max_ev max_seg) = Ok l1
    /\ start_new_segment env None l1 = Ok l2
    /\ in_first_segment 1 (encoded_length (create_subtree_map env)) l2
    /\ Journaler.body (journaler l2) = laid_out 0 [create_subtree_map env]
    /\ Journaler.active (journaler l2) = true.
Proof.
  intros He. eexists. eexists. split; [reflexivity |].
  split.
  - apply start_new_segment_enabled; [exact He | | ]; reflexivity.
  - repeat split.
Qed.

Lemma journaler_flushed_stream (l : t) :
  Journaler.body (journaler (journaler_flushed l))
  = Journaler.body (journaler l)
  /\ Journaler.active (journaler (journaler_flushed l))
     = Journaler.active (journaler l).
Proof.
  unfold journaler_flushed.
  match goal with
  | |- context [finish_contexts ?ls 0 ?s] =>
      destruct (finish_contexts_fields ls 0 s) as (_ & _ & J & _)
  end.
  rewrite J. split; reflexivity.
Qed.

Lemma submit_first_stream (env : Env) (le : LogEvent) (n w : Z) (l : t) :
  mds_log (g_conf env) = true ->
  0 < period env ->
  0 <= w -> w + encoded_length le < period env ->
  in_first_segment n w l ->
  exists l',
    submit_entry env le None l = Ok l'
    /\ in_first_segment (n + 1) (w + encoded_length le) l'
    /\ Journaler.body (journaler l')
       = Journaler.body (journaler l) ++ [(w, le)]
    /\ Journaler.active (journaler l') = Journaler.active (journaler l).
Proof.
  intros He Hp Hw Hlt Hin.
  destruct (submit_first env le n w l He Hp Hw Hlt Hin) as (l' & E & H).
  exists l'. split; [exact E |]. split; [exact H |].
  destruct Hin as (_ & _ & _ & W & _). destruct H as (_ & _ & _ & W' & _).
  destruct (submit_entry_cases _ _ _ _ _ He E) as (_ & _ & [[_ ->] | [_ Q]]).
  - unfold get_write_pos in W. cbn. rewrite W. split; reflexivity.
  - exfalso. subst l'.
    match type of W' with
    | get_write_pos (submitted ?e ?k (segment_opened ?s)) = _ =>
        destruct (submitted_fields e k (segment_opened s))
          as (_ & _ & W2 & _);
        destruct (segment_opened_fields s) as (_ & _ & W1 & _);
        pose proof (encoded_length_pos e)
    end.
    destruct (submitted_fields le None l) as (_ & _ & W0 & _).
    lia.
Qed.

Lemma submit_all_stream (env : Env) (es : list LogEvent) :
  mds_log (g_conf env) = true ->
  0 < period env ->
  forall (n w : Z) (l : t),
    0 <= w -> w + total_length es < period env ->
    in_first_segment n w l ->
    exists l',
      submit_all env es l = Ok l'
      /\ in_first_segment (n + Z.of_nat (List.length es))
           (w + total_length es) l'
      /\ Journaler.body (journaler l')
         = Journaler.body (journaler l) ++ laid_out w es
      /\ Journaler.active (journaler l') = Journaler.active (journaler l).
Proof.
  intros He Hp. induction es as [|e es IH]; intros n w l Hw Hlt Hin.
  - exists l. split; [reflexivity |].
    cbn [List.length total_length Z.of_nat laid_out].
    rewrite !Z.add_0_r, app_nil_r.
    split; [exact Hin |]. split; reflexivity.
  - cbn [total_length] in Hlt. cbn [submit_all].
    pose proof (total_length_nonneg es) as Hes.
    pose proof (encoded_length_pos e) as Hle.
    destruct (submit_first_stream env e n w l He Hp Hw ltac:(lia) Hin)
      as (l1 & E1 & H1 & B1 & A1).
    rewrite E1. cbn [bind].
    destruct (IH (n + 1) (w + encoded_length e) l1 ltac:(lia) ltac:(lia) H1)
      as (l2 & E2 & H2 & B2 & A2).
    exists l2. split; [exact E2 |].
    cbn [total_length laid_out].
    replace (n + Z.of_nat (List.length (e :: es)))
      with (n + 1 + Z.of_nat (List.length es))
      by (cbn [List.length]; lia).
    replace (w + (encoded_length e + total_length es))
      with (w + encoded_length e + total_length es) by lia.
    split; [exact H2 |]. split; [| congruence].
    rewrite B2, B1, <- app_assoc. reflexivity.
Qed.

Lemma flush_first_journaler (env : Env) (n w : Z) (l : t) :
  in_first_segment n w l ->
  exists l',
    flush env l = Ok l' /\ in_first_segment n w l'
    /\ journaler l' = journaler l.
Proof.
  intros (S & N & C & W & X). unfold flush.
  destruct (unflushed l =? 0);
    match goal with
    | |- exists l', trim env ?s = _ /\ _ =>
        destruct (trim_single env (LogSegment.mk 0 n) s)
          as (l' & E & S' & N' & J' & C');
        [exact C | exact S |]
    end;
    (exists l'; split; [exact E |]);
    (split; [| exact J']);
    unfold in_first_segment, get_write_pos, get_expire_pos in *;
    rewrite S', N', J', C'; repeat split; assumption.
Qed.

(** X15.  What is written can be replayed.  Build a log by [create],
    [start_new_segment], any run of [submit_entry] that stays within the
    first period, and [flush]; let a new log replay the stream that the
    first one leaves.  The replay returns and applies to the cache the
    checkpoint followed by the submitted events, in the order of
    submission, and counts as many events as the writer had counted. *)
Theorem write_then_replay :
  forall (env : Env) (durable : bool) (es : list LogEvent)
         (j : Journaler.t) (max_ev max_seg max_ev' max_seg' : Z)
         (c : option Context) (n : nat),
    mds_log (g_conf env) = true ->
    0 < period env ->
    encoded_length (create_subtree_map env) + total_length es
    < period env ->
    exists l l',
      single_segment_run env durable es (init j max_ev max_seg) = Ok l
      /\ num_events l = 1 + Z.of_nat (List.length es)
      /\ replay_to_end (S (S (List.length es)) + n) c
           (init (journaler l) max_ev' max_seg') = Ok l'
      /\ replayed l' = create_subtree_map env :: es
      /\ num_events l' = num_events l
      /\ finished l' = completed c.
Proof.
  intros env durable es j me ms me' ms' c n He Hp Hlt.
  pose proof (encoded_length_pos (create_subtree_map env)) as Hsm.
  unfold single_segment_run.
  destruct (start_stream env j me ms He) as (l1 & l2 & E1 & E2 & H2 & B2 & A2).
  rewrite E1. cbn [bind]. rewrite E2. cbn [bind].
  set (l3 := if durable then journaler_flushed l2 else l2).
  assert (H3 : in_first_segment 1 (encoded_length (create_subtree_map env)) l3
               /\ Journaler.body (journaler l3)
                  = laid_out 0 [create_subtree_map env]
               /\ Journaler.active (journaler l3) = true).
  { subst l3. destruct durable; [| split; [exact H2 | split; assumption]].
    destruct (journaler_flushed_stream l2) as (B & A).
    split; [apply journaler_flushed_first; exact H2 |].
    split; congruence. }
  destruct H3 as (H3 & B3 & A3).
  destruct (submit_all_stream env es He Hp 1
              (encoded_length (create_subtree_map env)) l3
              ltac:(lia) Hlt H3) as (l4 & E4 & H4 & B4 & A4).
  rewrite E4. cbn [bind].
  destruct (flush_first_journaler env _ _ l4 H4) as (l5 & E5 & H5 & J5).
  exists l5.
  destruct H5 as (S5 & N5 & C5 & W5 & X5).
  assert (Body : Journaler.body (journaler l5)
                 = laid_out 0 (create_subtree_map env :: es)).
  { rewrite J5, B4, B3. cbn [laid_out app]. rewrite Z.add_0_l. reflexivity. }
  destruct (replay_to_end_stream (create_subtree_map env :: es) c n
              (init (journaler l5) me' ms'))
    as (l' & E' & R' & N' & _ & _ & _ & _ & _ & F');
    try reflexivity.
  - change (Journaler.active (journaler l5) = true). congruence.
  - change (Journaler.body (journaler l5)
            = laid_out (Journaler.expire_pos (journaler l5))
                (create_subtree_map env :: es)).
    unfold get_expire_pos in X5. rewrite X5. exact Body.
  - change (Journaler.write_pos (journaler l5)
            = Journaler.expire_pos (journaler l5)
              + total_length (create_subtree_map env :: es)).
    unfold get_write_pos, get_expire_pos in *.
    rewrite W5, X5. cbn [total_length]. lia.
  - exists l'. split; [exact E5 |]. split; [rewrite N5; lia |].
    split; [exact E' |].
    cbn [from_first_checkpoint create_subtree_map _type is_subtreemap] in R', N'.
    split; [exact R' |]. split; [| exact F'].
    rewrite N', N5. cbn [List.length]. lia.
Qed.

Lemma write_then_replay_witness :
  exists l l',
    single_segment_run env_enabled true [event_A; event_B; event_D] log_new
    = Ok l
    /\ num_events l = 1 + 3
    /\ replay_to_end (S (S 3) + 0) None (init (journaler l) (-1) (-1)) = Ok l'
    /\ replayed l' = [create_subtree_map env_enabled;
                      event_A; event_B; event_D]
    /\ num_events l' = num_events l
    /\ finished l' = [].
Proof.
  apply (write_then_replay env_enabled true [event_A; event_B; event_D]
           journaler_blank (-1) (-1) (-1) (-1) None 0%nat); reflexivity.
Defined.

(** ** Trimming to the budgets *)

(** X16.  Within its budgets [trim] does nothing.  If the event budget is
    disabled (negative) or not exceeded by [num_events], and the segment
    budget is disabled or not exceeded by the segments that are not
    trimming, [trim] returns the log unchanged, whatever the barriers and
    the clock. *)
Theorem trim_within_budget :
  forall (env : Env) (l : t),
    max_events l < 0 \/ num_events l <= max_events l ->
    max_segments l < 0
    \/ size (segments l) - size (trimming_segments l) <= max_segments l ->
    - 2 ^ 31 <= size (segments l) - size (trimming_segments l) < 2 ^ 31 ->
    trim env l = Ok l.
Proof.
  intros env l He Hs Hr. unfold trim.
  destruct (segments l) as [|x m] eqn:E; [reflexivity |].
  cbn [is_empty trim_loop].
  assert (B : over_budget (num_events l) l = false).
  { unfold over_budget. rewrite E. apply orb_false_iff. split.
    - destruct (Z.leb_spec 0 (max_events l)); [| reflexivity].
      destruct (Z.ltb_spec (max_events l) (num_events l)); [lia | reflexivity].
    - destruct (Z.leb_spec 0 (max_segments l)); [| reflexivity].
      assert (C : int_cast (size (x :: m) - size (trimming_segments l))
                  = size (x :: m) - size (trimming_segments l)).
      { destruct Hs as [Hs | Hs]; [lia |].
        destruct (Z_lt_le_dec
                    (size (x :: m) - size (trimming_segments l)) 0).
        - unfold int_cast.
          assert (P31 : 2 ^ 31 = 2147483648) by reflexivity.
          assert (P32 : 2 ^ 32 = 4294967296) by reflexivity.
          rewrite P31, P32 in *.
          replace ((size (x :: m) - size (trimming_segments l))
                   mod 4294967296)
            with (size (x :: m) - size (trimming_segments l) + 4294967296).
          + destruct (Z.ltb_spec
                        (size (x :: m) - size (trimming_segments l)
                         + 4294967296) 2147483648); lia.
          + apply Z.mod_unique with (q := -1); lia.
        - apply int_cast_small. lia. }
      rewrite C.
      destruct (Z.ltb_spec (max_segments l)
                  (size (x :: m) - size (trimming_segments l)));
        [lia | reflexivity]. }
  rewrite B. reflexivity.
Qed.

Lemma trim_within_budget_witness :
  trim env_no_barrier log_one_event = Ok log_one_event.
Proof.
  apply (trim_within_budget env_no_barrier log_one_event).
  - left. reflexivity.
  - left. reflexivity.
  - split; [discriminate | reflexivity].
Defined.

Lemma seg_rbegin_last_offset (x : LogSegment.t) (m : segment_map)
      (s : LogSegment.t) :
  increasing (seg_keys (x :: m)) -> m <> [] ->
  seg_rbegin (x :: m) = Some s ->
  LogSegment.offset x < LogSegment.offset s.
Proof.
  intros [Hlt _] Hne Hs. destruct m as [|y m]; [contradiction |].
  change (seg_rbegin (x :: y :: m)) with (seg_rbegin (y :: m)) in Hs.
  apply Hlt. apply in_map. apply seg_rbegin_In. exact Hs.
Qed.

Section SegmentBudget.
Variable env : Env.
Hypothesis no_barrier : forall s, try_to_expire env s = false.
Hypothesis in_time :
  forall k, g_clock_now env k <= g_clock_now env 0 + 2000000.
Hypothesis may_trim : 0 < mds_log_max_trimming (g_conf env).

Lemma budget_trim_loop (p : list LogSegment.t) :
  forall (k : nat) (left : Z) (l : t),
    segments l = p -> capped l = false -> trimming_segments l = [] ->
    max_events l < 0 -> 1 <= max_segments l ->
    size p < 2 ^ 31 -> increasing (seg_keys p) ->
    let d := (List.length p - Z.to_nat (max_segments l))%nat in
    exists l',
      trim_loop env (g_clock_now env 0 + 2000000) k p left l = Ok l'
      /\ segments l' = skipn d p
      /\ num_events l' = num_events l - seg_sum (firstn d p)
      /\ (d = 0%nat -> get_expire_pos l' = get_expire_pos l)
      /\ (forall s, seg_rbegin (firstn d p) = Some s ->
                    get_expire_pos l' = LogSegment.offset s).
Proof.
  induction p as [|ls p IH]; intros k left l Hs Hc Ht He Hm Hsz Hi d.
  - exists l. subst d. cbn [trim_loop List.length Nat.sub skipn firstn seg_sum].
    repeat split; try assumption; try lia. discriminate.
  - cbn [trim_loop].
    assert (OB : over_budget left l
                 = (max_segments l <? size (ls :: p))).
    { unfold over_budget. rewrite Hs, Ht.
      change (size (@nil Z)) with 0. rewrite Z.sub_0_r.
      rewrite int_cast_small by (unfold size in *; lia).
      destruct (Z.leb_spec 0 (max_events l)); [lia |].
      destruct (Z.leb_spec 0 (max_segments l)); [| lia].
      reflexivity. }
    rewrite OB.
    destruct (Z.ltb_spec (max_segments l) (size (ls :: p))) as [Hover | Hin].
    + assert (Hd : d = S (List.length p - Z.to_nat (max_segments l))).
      { subst d. unfold size in Hover. cbn [List.length] in *. lia. }
      assert (Hp : p <> []).
      { intros ->. unfold size in Hover. cbn [List.length] in Hover. lia. }
      destruct (Z.ltb_spec (g_clock_now env 0 + 2000000) (g_clock_now env k));
        [specialize (in_time k); lia |].
      rewrite Ht. change (size (@nil Z)) with 0.
      rewrite int_cast_small by (cbn; lia).
      destruct (Z.leb_spec (mds_log_max_trimming (g_conf env)) 0); [lia |].
      cbn [set_count existsb].
      unfold try_trim. rewrite no_barrier.
      assert (Hls : In ls (segments l)) by (rewrite Hs; left; reflexivity).
      destruct (_trimmed_cases ls l Hls) as [(_ & Cur & _) | (_ & E)].
      { exfalso. unfold is_current, get_current_segment in Cur.
        rewrite Hs in Cur.
        destruct (seg_rbegin_some ls p) as (s & Hrb). rewrite Hrb in Cur.
        pose proof (seg_rbegin_last_offset ls p s Hi Hp Hrb).
        apply Z.eqb_eq in Cur. lia. }
      rewrite E. cbn [bind].
      destruct (removed_fields ls l) as (Sg & C & N & T & X).
      destruct (removed_untouched ls l) as (_ & _ & _ & _ & _ & Me & Ms).
      destruct Hi as [Hlt Hi].
      assert (S' : segments (removed ls l) = p).
      { rewrite Sg, Hs, seg_erase_cons, Z.eqb_refl.
        apply seg_erase_above, Hlt. }
      assert (X' : get_expire_pos (removed ls l) = LogSegment.offset ls).
      { rewrite X. unfold is_oldest. rewrite Hs. cbn [seg_begin hd_error].
        rewrite Z.eqb_refl. reflexivity. }
      destruct (IH (S k) (left - LogSegment.num_events ls) (removed ls l))
        as (l' & E' & S2 & N2 & X2 & X3); try congruence.
      { unfold size in *. cbn [List.length] in Hsz. lia. }
      rewrite Ms in S2, N2, X2, X3.
      set (d' := (List.length p - Z.to_nat (max_segments l))%nat) in *.
      exists l'. split; [exact E' |]. rewrite Hd.
      cbn [skipn firstn seg_sum].
      split; [exact S2 |]. split; [rewrite N2, N; lia |].
      split; [discriminate |].
      intros s Hrb. destruct (firstn d' p) as [|y q] eqn:Ef.
      * injection Hrb as <-. rewrite X2; [exact X' |].
        destruct d'; [reflexivity |].
        destruct p; [contradiction | discriminate].
      * apply X3. exact Hrb.
    + exists l.
      assert (Hd : d = 0%nat).
      { subst d. unfold size in Hin. lia. }
      rewrite Hd. cbn [skipn firstn seg_sum].
      repeat split; try assumption; try lia. discriminate.
Qed.
End SegmentBudget.

(** X17.  With no event budget and nothing in the way (no barrier pending,
    the clock within its two seconds, room in the trimming set), [trim]
    on an uncapped log brings the table down to the segment budget from
    the old end: of [n] segments it removes the oldest
    [n - max_segments] and keeps the rest as they are; [num_events] drops
    by the counts of the removed segments, and [expire_pos] ends at the
    offset of the last segment removed. *)
Theorem trim_to_segment_budget :
  forall (env : Env) (l : t),
    capped l = false ->
    trimming_segments l = [] ->
    max_events l < 0 ->
    1 <= max_segments l ->
    size (segments l) < 2 ^ 31 ->
    increasing (seg_keys (segments l)) ->
    (forall s, try_to_expire env s = false) ->
    (forall k, g_clock_now env k <= g_clock_now env 0 + 2000000) ->
    0 < mds_log_max_trimming (g_conf env) ->
    let d := (List.length (segments l) - Z.to_nat (max_segments l))%nat in
    exists l',
      trim env l = Ok l'
      /\ segments l' = skipn d (segments l)
      /\ num_events l' = num_events l - seg_sum (firstn d (segments l))
      /\ (forall s, seg_rbegin (firstn d (segments l)) = Some s ->
                    get_expire_pos l' = LogSegment.offset s).
Proof.
  intros env l Hc Ht He Hm Hsz Hi Hb Hclk Hmax d.
  unfold trim.
  destruct (segments l) as [|x m] eqn:Hs.
  - exists l. subst d. cbn. repeat split; try assumption; try lia.
    discriminate.
  - cbn [is_empty].
    destruct (budget_trim_loop env Hb Hclk Hmax (x :: m) 1%nat
                (num_events l) l Hs Hc Ht He Hm Hsz Hi)
      as (l' & E & S & N & _ & X).
    exists l'. repeat split; assumption.
Qed.

Lemma trim_to_segment_budget_witness :
  exists l',
    trim env_no_barrier log_three_segments = Ok l'
    /\ segments l' = [LogSegment.mk 4096 5]
    /\ num_events l' = 12 - 7
    /\ (forall s, Some (LogSegment.mk 2048 4) = Some s ->
                  get_expire_pos l' = LogSegment.offset s).
Proof.
  apply (trim_to_segment_budget env_no_barrier log_three_segments).
  - reflexivity.
  - reflexivity.
  - reflexivity.
  - discriminate.
  - reflexivity.
  - simpl. repeat split; intros y H; simpl in H;
      repeat (destruct H as [<- | H]; [reflexivity |]); destruct H.
  - reflexivity.
  - intros k. discriminate.
  - reflexivity.
Defined.
